(** * dgsh_util.c: detecting dgsh-compatible executables

    A shallow embedding of [src/dgsh_util.c] (GNU Bash, dgsh patch) and the
    properties of its classification functions.

    The C code reads the mapped file through raw pointers.  Pointers into the
    mapping are modelled as byte offsets relative to [data], kept modulo 2^64
    (LP64 host, little-endian); the memory behind [data] is a [list Z] of
    bytes.  A load whose offset does not fall inside the list yields the
    outcome [OutOfBounds] instead of a value: the C code has then read
    outside the memory it was given, and what happens next is not described
    by the model.

    The same functions are run on two memories.  [is_dgsh_program] runs them
    on what [mmap] provides: the bytes of the file followed by the zeros that
    fill its last page.  [classify_buffer] runs them on exactly the bytes of
    a buffer, so that [OutOfBounds] there means a read outside
    [0, length) of the buffer. *)

From Stdlib Require Import ZArith Lia.
From stdpp Require Import base option list strings gmap.

Local Open Scope Z_scope.
#[local] Set Warnings "-clear-no-such-hyp".

(** ** Memory and outcomes *)

Inductive outcome (A : Type) : Type :=
| Done (a : A)
| OutOfBounds (off : Z).
Arguments Done {A} a.
Arguments OutOfBounds {A} off.

#[global] Instance outcome_ret : MRet outcome := fun A a => Done a.
#[global] Instance outcome_bind : MBind outcome := fun A B f m =>
  match m with
  | Done a => f a
  | OutOfBounds off => OutOfBounds off
  end.

#[global] Instance outcome_eq_dec {A} `{EqDecision A} : EqDecision (outcome A).
Proof. solve_decision. Defined.

#[global] Instance outcome_fmap : FMap outcome := fun A B f m =>
  match m with
  | Done a => Done (f a)
  | OutOfBounds off => OutOfBounds off
  end.

Definition is_done {A} (m : outcome A) : bool :=
  match m with Done _ => true | OutOfBounds _ => false end.

(** Pointer arithmetic on a 64-bit host: offsets wrap at 2^64. *)
Definition ptr_add (p n : Z) : Z := (p + n) mod 2 ^ 64.

(** The byte at [data + off]. *)
Definition load8 (data : list Z) (off : Z) : outcome Z :=
  if bool_decide (0 ≤ off) then
    match data !! Z.to_nat off with
    | Some b => Done b
    | None => OutOfBounds off
    end
  else OutOfBounds off.

(** The [n] bytes at [off], [off + 1], ... read in increasing order. *)
Fixpoint load_bytes (data : list Z) (off : Z) (n : nat) : outcome (list Z) :=
  match n with
  | O => Done []
  | S n' =>
      b ← load8 data off;
      bs ← load_bytes data (ptr_add off 1) n';
      Done (b :: bs)
  end.

(** Value of a little-endian field. *)
Fixpoint le_value (bs : list Z) : Z :=
  match bs with
  | [] => 0
  | b :: bs' => b + 256 * le_value bs'
  end.

(** Loads of the [uint16_t], [uint32_t] and [uint64_t] fields of the ELF
    structures, in the byte order of a little-endian host. *)
Definition load16 (data : list Z) (off : Z) : outcome Z :=
  le_value <$> load_bytes data off 2.
Definition load32 (data : list Z) (off : Z) : outcome Z :=
  le_value <$> load_bytes data off 4.
Definition load64 (data : list Z) (off : Z) : outcome Z :=
  le_value <$> load_bytes data off 8.

(** ** C strings and the libc functions used by the source *)

(** The characters of a string literal, without its terminating NUL. *)
Definition chars (s : string) : list Z :=
  (fun c => Z.of_N (Ascii.N_of_ascii c)) <$> String.list_ascii_of_string s.

(** The array a string literal denotes: its characters and the NUL. *)
Definition c_string (s : string) : list Z := chars s ++ [0].

(** [sizeof] of a string literal, and [strlen]. *)
Definition sizeof_lit (s : string) : Z := Z.of_nat (length (c_string s)).
Definition strlen (s : string) : Z := Z.of_nat (length (chars s)).

(** [memcmp(data + off, lit, n)]: all [n] bytes of the left operand are
    accessed.  The callers only test the result against 0, so it is 0 for
    equal ranges and 1 otherwise. *)
Definition memcmp (data : list Z) (off : Z) (lit : list Z) (n : nat)
  : outcome Z :=
  bs ← load_bytes data off n;
  mret (if bool_decide (bs = take n lit) then 0 else 1).

(** [memchr(data + off, c, n)]: offset of the first byte equal to [c] among
    the next [n] bytes, [None] standing for the null pointer. *)
Fixpoint memchr (data : list Z) (off : Z) (c : Z) (n : nat)
  : outcome (option Z) :=
  match n with
  | O => mret None
  | S n' =>
      b ← load8 data off;
      if bool_decide (b = c) then mret (Some off)
      else memchr data (ptr_add off 1) c n'
  end.

(** [strcmp(data + off, lit)] for a literal given by its characters: bytes are
    read up to the first difference or the common NUL.  0 for equal strings,
    1 otherwise (the callers only test for 0). *)
Fixpoint strcmp (data : list Z) (off : Z) (lit : list Z) : outcome Z :=
  match lit with
  | [] => b ← load8 data off; mret (if bool_decide (b = 0) then 0 else 1)
  | x :: lit' =>
      b ← load8 data off;
      if bool_decide (b = x) then strcmp data (ptr_add off 1) lit'
      else mret 1
  end.

(** ** The source's constants *)

Definition DGSH_NAME : string := "DSpinellis/dgsh".
Definition MAX_LINE_LEN : Z := 1024.
Definition newline : Z := 10.

(** From [elf.h]: [ELFMAG] with [SELFMAG = 4], and [EI_CLASS]. *)
Definition ELFMAG : list Z := [127; 69; 76; 70].
Definition SELFMAG : nat := 4.
Definition EI_CLASS : Z := 4.

(** ** Script scanner *)

(** The loop of [linenstr]: [haystack] is the current pointer, [hlen] the
    remaining count.  The test [nlen < hlen--] comes first; the byte at
    [haystack] is read only when it holds. *)
Fixpoint linenstr_loop (data needle : list Z) (haystack : Z) (hlen : nat)
  : outcome (option Z) :=
  match hlen with
  | O => mret None
  | S hlen' =>
      if bool_decide (Z.of_nat (length needle) < Z.of_nat hlen) then
        c ← load8 data haystack;
        if bool_decide (c ≠ newline) then
          r ← memcmp data haystack needle (length needle);
          if bool_decide (r = 0) then mret (Some haystack)
          else linenstr_loop data needle (ptr_add haystack 1) hlen'
        else mret None
      else mret None
  end.

(** [linenstr(data, needle, hlen)]; [None] is the null pointer. *)
Definition linenstr (data : list Z) (needle : string) (hlen : Z)
  : outcome (option Z) :=
  linenstr_loop data (chars needle) 0 (Z.to_nat hlen).

Definition magic : string := "#!dgsh".

Definition is_magic_script_dgsh_program (data : list Z) (len : Z)
  : outcome Z :=
  line2 ← memchr data 0 newline (Z.to_nat len);
  match line2 with
  | None => mret 0
  | Some nl =>
      let line2 := ptr_add nl 1 in
      let len := (len - (line2 - 0)) mod 2 ^ 64 in
      if bool_decide (len < sizeof_lit magic) then mret 0
      else
        r ← memcmp data line2 (c_string magic)
              (Z.to_nat (sizeof_lit magic - 1));
        mret (if bool_decide (r = 0) then 1 else 0)
  end.

(** One operand of the [||] chain: true when the pointer is not null. *)
Definition found (p : option Z) : bool := bool_decide (p ≠ None).

Definition is_script_dgsh_program (data : list Z) (len : Z) : outcome Z :=
  let len := if bool_decide (len < MAX_LINE_LEN) then len else MAX_LINE_LEN in
  a ← linenstr data "dgsh-wrap" len;
  if found a then mret 1 else
  b ← linenstr data "--dgsh" len;
  if found b then mret 1 else
  c ← linenstr data "env dgsh" len;
  if found c then mret 1 else
  d ← is_magic_script_dgsh_program data len;
  mret (if bool_decide (d ≠ 0) then 1 else 0).

(** The first line feed of a window of bytes, as an offset. *)
Definition first_newline (window : list Z) : option Z :=
  (λ x : nat * Z, Z.of_nat x.1) <$> list_find (λ b, b = newline) window.

(** ** ELF walker *)

(** The fields of [elf.h] the source reads, for one ELF class: where they
    are inside their structure and how wide the class-dependent ones are. *)
Record elf_layout : Type := {
  e_shoff_at : Z;          (* offsetof(ElfN_Ehdr, e_shoff) *)
  e_shnum_at : Z;          (* offsetof(ElfN_Ehdr, e_shnum), uint16_t *)
  e_shstrndx_at : Z;       (* offsetof(ElfN_Ehdr, e_shstrndx), uint16_t *)
  shdr_size : Z;           (* sizeof(ElfN_Shdr) *)
  sh_name_at : Z;          (* offsetof(ElfN_Shdr, sh_name), uint32_t *)
  sh_offset_at : Z;        (* offsetof(ElfN_Shdr, sh_offset) *)
  word_bytes : nat         (* width of ElfN_Off: e_shoff and sh_offset *)
}.

Definition elf32 : elf_layout :=
  {| e_shoff_at := 32; e_shnum_at := 48; e_shstrndx_at := 50;
     shdr_size := 40; sh_name_at := 0; sh_offset_at := 16; word_bytes := 4 |}.

Definition elf64 : elf_layout :=
  {| e_shoff_at := 40; e_shnum_at := 60; e_shstrndx_at := 62;
     shdr_size := 64; sh_name_at := 0; sh_offset_at := 24; word_bytes := 8 |}.

(** [sizeof(Elf32_Nhdr) = sizeof(Elf64_Nhdr)]: three [uint32_t], of which
    [n_namesz] is the first. *)
Definition nhdr_size : Z := 12.

Definition load_off (L : elf_layout) (data : list Z) (off : Z) : outcome Z :=
  le_value <$> load_bytes data off (word_bytes L).

Definition note_ident : string := ".note.ident".

Section has_dgsh_section.
Context (L : elf_layout) (data : list Z).
(** [shdr] and [strTab] are pointers into [data]. *)
Context (shdr strTab : Z).

(** [&shdr[i]] *)
Definition shdr_entry (i : Z) : Z := ptr_add shdr (i * shdr_size L).

(** One iteration of the [for] loop: [true] when it executes [return 1],
    [false] when it runs to the end of the body or to [continue]. *)
Definition has_dgsh_section_body (i : Z) : outcome bool :=
  sh_name ← load32 data (ptr_add (shdr_entry i) (sh_name_at L));
  c ← strcmp data (ptr_add strTab sh_name) (chars note_ident);
  if bool_decide (c ≠ 0) then mret false
  else
    sh_offset ← load_off L data (ptr_add (shdr_entry i) (sh_offset_at L));
    let note := ptr_add 0 sh_offset in
    n_namesz ← load32 data note;
    if bool_decide (n_namesz = sizeof_lit DGSH_NAME) then
      r ← memcmp data (ptr_add note nhdr_size) (c_string DGSH_NAME)
            (Z.to_nat (sizeof_lit DGSH_NAME));
      mret (bool_decide (r = 0))
    else mret false.

(** [for (i = ...; i < shNum; i++)] with [n = shNum - i] iterations left.
    Returns the function's result and the value of [i] on exit. *)
Fixpoint has_dgsh_section_loop (i : Z) (n : nat) : outcome (Z * Z) :=
  match n with
  | O => mret (0, i)
  | S n' =>
      hit ← has_dgsh_section_body i;
      if hit : bool then mret (1, i)
      else has_dgsh_section_loop (i + 1) n'
  end.

Definition has_dgsh_section (shNum : Z) : outcome Z :=
  fst <$> has_dgsh_section_loop 0 (Z.to_nat shNum).

(** Whether the name of section [i], looked up in the string table, is
    [name]: the test the loop body starts with. *)
Definition section_named (name : string) (i : Z) : outcome bool :=
  sh_name ← load32 data (ptr_add (shdr_entry i) (sh_name_at L));
  c ← strcmp data (ptr_add strTab sh_name) (chars name);
  mret (bool_decide (c = 0)).

(** Where the note record of section [i] starts: [data + shdr[i].sh_offset]. *)
Definition section_note (i : Z) : outcome Z :=
  ptr_add 0 <$> load_off L data (ptr_add (shdr_entry i) (sh_offset_at L)).
End has_dgsh_section.

Definition has_dgsh_section_32 (shdr strTab shNum : Z) (data : list Z)
  : outcome Z := has_dgsh_section elf32 data shdr strTab shNum.

Definition has_dgsh_section_64 (shdr strTab shNum : Z) (data : list Z)
  : outcome Z := has_dgsh_section elf64 data shdr strTab shNum.

Definition is_elf_dgsh_program (data : list Z) : outcome Z :=
  c ← memcmp data 0 ELFMAG SELFMAG;
  if bool_decide (c ≠ 0) then mret 0
  else
    arch ← load8 data EI_CLASS;
    if bool_decide (arch = 1) then
      e_shoff ← load32 data 32;
      let shdr := ptr_add 0 e_shoff in
      e_shstrndx ← load16 data 50;
      sh_offset ← load32 data (ptr_add (ptr_add shdr (e_shstrndx * 40)) 16);
      let strtab := ptr_add 0 sh_offset in
      e_shnum ← load16 data 48;
      has_dgsh_section_32 shdr strtab e_shnum data
    else if bool_decide (arch = 2) then
      e_shoff ← load64 data 40;
      let shdr := ptr_add 0 e_shoff in
      e_shstrndx ← load16 data 62;
      sh_offset ← load64 data (ptr_add (ptr_add shdr (e_shstrndx * 64)) 24);
      let strtab := ptr_add 0 sh_offset in
      e_shnum ← load16 data 60;
      has_dgsh_section_64 shdr strtab e_shnum data
    else mret 0.

(** The header fields the walker uses, as a view of the buffer
    (the spec's ElfHeaderView): [None] when the magic number or the class
    byte is not one the walker accepts. *)
Record ehdr : Type := {
  e_class : elf_layout;
  e_shoff : Z;
  e_shnum : Z;
  e_shstrndx : Z
}.

Definition layout_of_class (arch : Z) : option elf_layout :=
  if bool_decide (arch = 1) then Some elf32
  else if bool_decide (arch = 2) then Some elf64
  else None.

Definition read_ehdr (data : list Z) : outcome (option ehdr) :=
  c ← memcmp data 0 ELFMAG SELFMAG;
  if bool_decide (c ≠ 0) then mret None
  else
    arch ← load8 data EI_CLASS;
    match layout_of_class arch with
    | None => mret None
    | Some L =>
        shoff ← load_off L data (e_shoff_at L);
        shnum ← load16 data (e_shnum_at L);
        shstrndx ← load16 data (e_shstrndx_at L);
        mret (Some {| e_class := L; e_shoff := shoff; e_shnum := shnum;
                      e_shstrndx := shstrndx |})
    end.

(** Offset of [shdr[e_shstrndx].sh_offset], the field the walker takes the
    string table's position from. *)
Definition strtab_field (h : ehdr) : Z :=
  ptr_add (shdr_entry (e_class h) (ptr_add 0 (e_shoff h)) (e_shstrndx h))
    (sh_offset_at (e_class h)).

(** The string table base, the name test and the note position for a
    buffer whose header view is [h]. *)
Definition elf_strtab (data : list Z) (h : ehdr) : outcome Z :=
  ptr_add 0 <$> load_off (e_class h) data (strtab_field h).

Definition elf_section_named (data : list Z) (h : ehdr) (strtab : Z)
    (name : string) (i : Z) : outcome bool :=
  section_named (e_class h) data (ptr_add 0 (e_shoff h)) strtab name i.

Definition elf_section_note (data : list Z) (h : ehdr) (i : Z) : outcome Z :=
  section_note (e_class h) data (ptr_add 0 (e_shoff h)) i.

(** The bytes of the buffer at [off .. off + n), as far as they exist. *)
Definition bytes_at (data : list Z) (off : Z) (n : nat) : list Z :=
  take n (drop (Z.to_nat off) data).

(** ** The loader: [is_dgsh_program] and [main] *)

(** What the process can observe of its environment: the files that can be
    opened for reading, the host's page size, and the resources the process
    holds. *)
Record world : Type := {
  files : gmap string (list Z);
  page_size : Z;
  open_fds : nat;
  live_mappings : nat
}.

(** The value of [data] after [mmap]. *)
Inductive pointer : Type :=
| NULL
| MAP_FAILED
| Mapping (region : list Z).

(** [open(path, O_RDONLY)]: [None] is the result -1.  The descriptor is
    represented by the contents of the file it refers to. *)
Definition sys_open (w : world) (path : string) : option (list Z * world) :=
  match files w !! path with
  | None => None
  | Some content =>
      Some (content, {| files := files w; page_size := page_size w;
                        open_fds := S (open_fds w);
                        live_mappings := live_mappings w |})
  end.

Definition sys_close (w : world) : world :=
  {| files := files w; page_size := page_size w;
     open_fds := pred (open_fds w); live_mappings := live_mappings w |}.

(** [lseek(fd, 0, SEEK_END)] *)
Definition sys_lseek_end (fd : list Z) : Z := Z.of_nat (length fd).

(** The pages mapped for a file: its bytes and the zeros that fill the
    last page. *)
Definition mapped_region (w : world) (fd : list Z) : list Z :=
  fd ++ replicate (Z.to_nat ((- Z.of_nat (length fd)) mod page_size w)) 0.

(** [mmap(NULL, file_size, PROT_READ, MAP_SHARED, fd, 0)] as POSIX has it: a
    length of 0 fails with [MAP_FAILED]; otherwise whole pages are mapped and
    the part of the last page after the end of the file reads as zeros. *)
Definition sys_mmap (w : world) (file_size : Z) (fd : list Z)
  : pointer * world :=
  if bool_decide (file_size = 0) then (MAP_FAILED, w)
  else
    (Mapping (mapped_region w fd),
     {| files := files w; page_size := page_size w;
        open_fds := open_fds w; live_mappings := S (live_mappings w) |}).

Definition sys_munmap (w : world) : world :=
  {| files := files w; page_size := page_size w;
     open_fds := open_fds w; live_mappings := pred (live_mappings w) |}.

(** The bytes that can be read through a pointer. *)
Definition readable (p : pointer) : list Z :=
  match p with
  | Mapping region => region
  | NULL | MAP_FAILED => []
  end.

(** The part of [is_dgsh_program] between [mmap] and [munmap]. *)
Definition dispatch (data : list Z) (file_size : Z) : outcome Z :=
  c ← memcmp data 0 (chars "#!") 2;
  if bool_decide (c = 0) then is_script_dgsh_program data file_size
  else is_elf_dgsh_program data.

Definition is_dgsh_program (w : world) (path : string) : outcome Z * world :=
  match sys_open w path with
  | None => (Done 0, w)
  | Some (fd, w) =>
      let file_size := sys_lseek_end fd in
      let '(data, w) := sys_mmap w file_size fd in
      let w := sys_close w in
      match data with
      | NULL => (Done 0, w)
      | _ =>
          match dispatch (readable data) file_size with
          | Done r => (Done r, sys_munmap w)
          | OutOfBounds off => (OutOfBounds off, w)
          end
      end
  end.

(** [main] of the [DGSH_COMPAT] build, called with one path argument: the
    exit status. *)
Definition main (w : world) (path : string) : outcome Z :=
  r ← fst (is_dgsh_program w path);
  mret (if bool_decide (r ≠ 0) then 0 else 2).

(** Classification of a byte buffer: the dispatch run on exactly the
    buffer's bytes, so that [OutOfBounds] means a read outside
    [0, length) of the buffer. *)
Definition classify_buffer (buffer : list Z) : outcome Z :=
  dispatch buffer (Z.of_nat (length buffer)).

(** ** What the scanners look for, stated on the bytes *)

(** The token [needle] occurs at offset [q] of the window, on its first
    line (no line feed up to and including [q]), and a byte of the window
    follows it. *)
Definition token_at (window needle : list Z) (q : Z) : Prop :=
  0 ≤ q
  ∧ q + Z.of_nat (length needle) < Z.of_nat (length window)
  ∧ bytes_at window q (length needle) = needle
  ∧ Forall (λ b, b ≠ newline) (take (Z.to_nat (q + 1)) window).

Definition token_on_first_line (window : list Z) (token : string) : Prop :=
  ∃ q, token_at window (chars token) q.

(** A line feed is in the window, at least seven bytes of the window follow
    the first one, and the first six of them are [#!dgsh]. *)
Definition magic_on_second_line (window : list Z) : Prop :=
  ∃ p, first_newline window = Some p
       ∧ 7 ≤ Z.of_nat (length window) - (p + 1)
       ∧ bytes_at window (p + 1) 6 = chars magic.

Definition script_marker_present (window : list Z) : Prop :=
  token_on_first_line window "dgsh-wrap"
  ∨ token_on_first_line window "--dgsh"
  ∨ token_on_first_line window "env dgsh"
  ∨ magic_on_second_line window.

(** The [sh_name] field of section [i] for a buffer whose header view is
    [h]. *)
Definition elf_section_sh_name (data : list Z) (h : ehdr) (i : Z)
  : outcome Z :=
  load32 data
    (ptr_add (shdr_entry (e_class h) (ptr_add 0 (e_shoff h)) i)
       (sh_name_at (e_class h))).

(** The loop body of the section scan for a buffer whose header view is
    [h]: whether section [i] makes the walker return 1. *)
Definition elf_section_matches (data : list Z) (h : ehdr) (strtab : Z)
    (i : Z) : outcome bool :=
  has_dgsh_section_body (e_class h) data (ptr_add 0 (e_shoff h)) strtab i.

(** The dispatch as the process runs it for a file [b]: on the pages
    mapped for the file followed by [neighbour], the bytes that happen to
    lie after the mapping in the address space. *)
Definition classify_mapped (w : world) (b neighbour : list Z) : outcome Z :=
  dispatch (mapped_region w b ++ neighbour) (Z.of_nat (length b)).

(** ** Concrete files used in the examples *)

(** Little-endian encoding of [v] on [n] bytes. *)
Fixpoint le_bytes (n : nat) (v : Z) : list Z :=
  match n with
  | O => []
  | S n' => v mod 256 :: le_bytes n' (v / 256)
  end.

Module Fixture.
(** An [Elf64_Ehdr] with the three fields the walker reads. *)
Definition ehdr64 (e_shoff e_shnum e_shstrndx : Z) : list Z :=
  ELFMAG ++ [2] ++ replicate 35 0 ++ le_bytes 8 e_shoff ++ replicate 12 0
    ++ le_bytes 2 e_shnum ++ le_bytes 2 e_shstrndx.

Definition shdr64 (sh_name sh_offset : Z) : list Z :=
  le_bytes 4 sh_name ++ replicate 20 0 ++ le_bytes 8 sh_offset
    ++ replicate 32 0.

Definition ehdr32 (e_shoff e_shnum e_shstrndx : Z) : list Z :=
  ELFMAG ++ [1] ++ replicate 27 0 ++ le_bytes 4 e_shoff ++ replicate 12 0
    ++ le_bytes 2 e_shnum ++ le_bytes 2 e_shstrndx.

Definition shdr32 (sh_name sh_offset : Z) : list Z :=
  le_bytes 4 sh_name ++ replicate 12 0 ++ le_bytes 4 sh_offset
    ++ replicate 20 0.

(** A note record: header with [n_namesz], [n_descsz = 0], [n_type = 1],
    then the name bytes. *)
Definition note (n_namesz : Z) (name : list Z) : list Z :=
  le_bytes 4 n_namesz ++ le_bytes 4 0 ++ le_bytes 4 1 ++ name.

(** Section name string table: [.note.ident] at index 1, [.shstrtab] at
    index 13; 24 bytes. *)
Definition shstrtab : list Z :=
  [0] ++ c_string ".note.ident" ++ c_string ".shstrtab" ++ [0].

(** A 64-bit ELF file with two sections, [.note.ident] (index 0, content
    at offset 216) and [.shstrtab] (index 1, content at offset 192). *)
Definition elf64_with_note (e_shnum e_shstrndx : Z) (nt : list Z)
  : list Z :=
  ehdr64 64 e_shnum e_shstrndx ++ shdr64 1 216 ++ shdr64 13 192
    ++ shstrtab ++ nt.

Definition elf32_with_note (nt : list Z) : list Z :=
  ehdr32 52 2 1 ++ shdr32 1 156 ++ shdr32 13 132 ++ shstrtab ++ nt.

Definition dgsh_note : list Z := note 16 (c_string DGSH_NAME).

(** A script whose token is on its second line. *)
Definition wrap_on_second_line : list Z :=
  chars "#!/bin/sh" ++ [newline] ++ chars "echo dgsh-wrap" ++ [newline].

(** A script whose second line begins with the marker. *)
Definition magic_on_second_line : list Z :=
  chars "#!/bin/sh" ++ [newline] ++ chars "#!dgsh extra" ++ [newline].

(** A script of one line, without a line feed. *)
Definition one_line : list Z := chars "#!/bin/sh -x".

(** A script with four bytes after its first line feed. *)
Definition short_second_line : list Z :=
  chars "#!/bin/sh" ++ [newline] ++ chars "#!dg".

(** A script whose first line fills the search window of 1024 bytes, so
    that its first line feed is at offset 1024. *)
Definition long_first_line : list Z :=
  chars "#!" ++ replicate 1022 97 ++ [newline] ++ chars "#!dgsh"
    ++ [newline].

(** Neither a script nor an ELF file. *)
Definition plain_text : list Z := chars "hello" ++ [newline].

(** A file of length zero. *)
Definition empty_file : list Z := [].

(** A script ending with the marker, no byte after it. *)
Definition magic_at_end : list Z :=
  chars "#!/bin/sh" ++ [newline] ++ chars "#!dgsh".

(** A script whose first line holds a token twice, the second time as the
    last bytes of the file. *)
Definition token_twice : list Z := chars "#! --dgsh --dgsh".

(** Memory after the page mapped for [shoff_beyond_end] that holds, at
    offset 4096, a section header naming [.note.ident] with a dgsh note. *)
Definition neighbour_with_note : list Z :=
  shdr64 28 4160 ++ dgsh_note ++ c_string ".note.ident".

(** Memory after that page that holds zeros. *)
Definition neighbour_of_zeros : list Z := replicate 64 0.

(** A script whose first line ends the file with a token. *)
Definition token_at_end : list Z := chars "#!/bin/sh --dgsh".

(** Only a header, whose section header table offset is far beyond it. *)
Definition shoff_beyond_end : list Z := ehdr64 4096 1 0.

(** A [.note.ident] section whose content would start far beyond the end of
    the file. *)
Definition note_beyond_end : list Z :=
  ehdr64 64 2 1 ++ shdr64 1 100000 ++ shdr64 13 192 ++ shstrtab.

(** Two sections, both named [.shstrtab]. *)
Definition no_note_section : list Z :=
  ehdr64 64 2 1 ++ shdr64 13 216 ++ shdr64 13 192 ++ shstrtab.

(** An ELF identification of class 2 and nothing else. *)
Definition only_e_ident : list Z := ELFMAG ++ [2; 1; 1; 0].

(** One declared section, and a string table index that is not below the
    section count: it selects the entry lying after the declared table. *)
Definition shstrndx_beyond_count : list Z := elf64_with_note 1 1 dgsh_note.

Definition world_of (fs : list (string * list Z)) : world :=
  {| files := list_to_map fs; page_size := 4096;
     open_fds := 3; live_mappings := 0 |}.
End Fixture.

(** * Properties *)

(** Reduction of the monad operations only: the literals and the pointer
    arithmetic stay folded. *)
Ltac simpl_outcome :=
  cbn [mbind outcome_bind mret outcome_ret fmap outcome_fmap].
#[local] Arguments ptr_add : simpl never.
#[local] Arguments chars : simpl never.
#[local] Arguments c_string : simpl never.
#[local] Arguments sizeof_lit : simpl never.

(** ** Outcomes *)

Lemma bind_Done {A B} (m : outcome A) (k : A → outcome B) (b : B) :
  m ≫= k = Done b ↔ ∃ a, m = Done a ∧ k a = Done b.
Proof.
  destruct m as [a|o]; simpl.
  - split; [eauto | intros (? & [= <-] & ?); done].
  - split; [done | intros (? & ? & ?); done].
Qed.

Lemma bind_OutOfBounds {A B} (m : outcome A) (k : A → outcome B) (o : Z) :
  m ≫= k = OutOfBounds o ↔
  m = OutOfBounds o ∨ ∃ a, m = Done a ∧ k a = OutOfBounds o.
Proof.
  destruct m as [a|o']; simpl.
  - naive_solver.
  - naive_solver.
Qed.

Lemma fmap_Done {A B} (f : A → B) (m : outcome A) (b : B) :
  f <$> m = Done b ↔ ∃ a, m = Done a ∧ b = f a.
Proof.
  destruct m as [a|o]; simpl.
  - split; [intros [= <-]; eauto | intros (? & [= <-] & ->); done].
  - split; [done | intros (? & ? & ?); done].
Qed.

Lemma fmap_OutOfBounds {A B} (f : A → B) (m : outcome A) (o : Z) :
  f <$> m = OutOfBounds o ↔ m = OutOfBounds o.
Proof. destruct m; simpl; split; congruence. Qed.

(** A computation over the mapped bytes is [stable] when a result it
    produces is unchanged by appending bytes to the memory, and [confined]
    when every offset it reports out of bounds really is. *)
Definition stable {A} (f : list Z → outcome A) : Prop :=
  ∀ data ext a, f data = Done a → f (data ++ ext) = Done a.

Definition confined {A} (f : list Z → outcome A) : Prop :=
  ∀ data o, f data = OutOfBounds o → o < 0 ∨ Z.of_nat (length data) ≤ o.

Lemma stable_ret {A} (a : A) : stable (λ _, mret a).
Proof. by intros ???. Qed.

Lemma stable_bind {A B} (f : list Z → outcome A) (g : A → list Z → outcome B) :
  stable f → (∀ a, stable (g a)) → stable (λ d, f d ≫= λ a, g a d).
Proof.
  intros Hf Hg data ext b (a & Ha & Hb)%bind_Done.
  rewrite (Hf _ _ _ Ha). simpl. by apply Hg.
Qed.

Lemma stable_fmap {A B} (h : A → B) (f : list Z → outcome A) :
  stable f → stable (λ d, h <$> f d).
Proof.
  intros Hf data ext b (a & Ha & ->)%fmap_Done. by rewrite (Hf _ _ _ Ha).
Qed.

Lemma stable_if {A} (b : bool) (f g : list Z → outcome A) :
  stable f → stable g → stable (λ d, if b then f d else g d).
Proof. by destruct b. Qed.

Lemma confined_ret {A} (a : A) : confined (λ _, mret a).
Proof. by intros ??. Qed.

Lemma confined_bind {A B} (f : list Z → outcome A)
    (g : A → list Z → outcome B) :
  confined f → (∀ a, confined (g a)) → confined (λ d, f d ≫= λ a, g a d).
Proof.
  intros Hf Hg data o [Ho | (a & Ha & Ho)]%bind_OutOfBounds.
  - by apply Hf.
  - by apply (Hg a).
Qed.

Lemma confined_fmap {A B} (h : A → B) (f : list Z → outcome A) :
  confined f → confined (λ d, h <$> f d).
Proof. intros Hf data o Ho%fmap_OutOfBounds. by apply Hf. Qed.

Lemma confined_if {A} (b : bool) (f g : list Z → outcome A) :
  confined f → confined g → confined (λ d, if b then f d else g d).
Proof. by destruct b. Qed.

(** ** Loads *)

Lemma ptr_add_range p n : 0 ≤ ptr_add p n < 2 ^ 64.
Proof. unfold ptr_add. apply Z.mod_pos_bound. lia. Qed.

Lemma ptr_add_small p n : 0 ≤ p + n < 2 ^ 64 → ptr_add p n = p + n.
Proof. intros. unfold ptr_add. by apply Z.mod_small. Qed.

Lemma load8_Done data off b :
  load8 data off = Done b ↔ 0 ≤ off ∧ data !! Z.to_nat off = Some b.
Proof.
  unfold load8. case_bool_decide.
  - destruct (data !! Z.to_nat off) eqn:E; naive_solver.
  - naive_solver.
Qed.

Lemma load8_OutOfBounds data off o :
  load8 data off = OutOfBounds o ↔
  o = off ∧ (off < 0 ∨ Z.of_nat (length data) ≤ off).
Proof.
  unfold load8. case_bool_decide.
  - destruct (data !! Z.to_nat off) eqn:E.
    + apply lookup_lt_Some in E. split; [done | lia].
    + apply lookup_ge_None in E. split; [intros [= <-] | by intros [-> _]].
      split; [done | lia].
  - split; [intros [= <-] | by intros [-> _]]. split; [done | lia].
Qed.

Lemma load8_in data off :
  0 ≤ off < Z.of_nat (length data) → ∃ b, load8 data off = Done b.
Proof.
  intros H. destruct (load8 data off) as [b|o] eqn:E; [eauto |].
  apply load8_OutOfBounds in E. lia.
Qed.

Lemma stable_load8 off : stable (λ d, load8 d off).
Proof.
  intros data ext b [? H]%load8_Done. apply load8_Done. split; [done |].
  by apply lookup_app_l_Some.
Qed.

Lemma confined_load8 off : confined (λ d, load8 d off).
Proof. intros data o [-> ?]%load8_OutOfBounds. done. Qed.

Lemma stable_load_bytes n : ∀ off, stable (λ d, load_bytes d off n).
Proof.
  induction n as [|n IH]; intros off; simpl.
  - apply stable_ret.
  - apply stable_bind; [apply stable_load8 | intros b].
    apply stable_bind; [apply IH | intros bs]. apply stable_ret.
Qed.

Lemma confined_load_bytes n : ∀ off, confined (λ d, load_bytes d off n).
Proof.
  induction n as [|n IH]; intros off; simpl.
  - apply confined_ret.
  - apply confined_bind; [apply confined_load8 | intros b].
    apply confined_bind; [apply IH | intros bs]. apply confined_ret.
Qed.

(** Stability and confinement are preserved by every construct the
    embedding uses, so they are established by following the definitions. *)
Ltac follow_definition lemmas :=
  repeat first
    [ apply stable_ret | apply confined_ret
    | lemmas
    | apply stable_bind; [| intros ?] | apply confined_bind; [| intros ?]
    | apply stable_fmap | apply confined_fmap
    | apply stable_if | apply confined_if ].

Ltac loads :=
  first [ apply stable_load8 | apply confined_load8
        | apply stable_load_bytes | apply confined_load_bytes ].

Lemma stable_memcmp off lit n : stable (λ d, memcmp d off lit n).
Proof. unfold memcmp. follow_definition loads. Qed.

Lemma confined_memcmp off lit n : confined (λ d, memcmp d off lit n).
Proof. unfold memcmp. follow_definition loads. Qed.

Lemma stable_memchr c n : ∀ off, stable (λ d, memchr d off c n).
Proof.
  induction n as [|n IH]; intros off; simpl; follow_definition loads.
  apply IH.
Qed.

Lemma confined_memchr c n : ∀ off, confined (λ d, memchr d off c n).
Proof.
  induction n as [|n IH]; intros off; simpl; follow_definition loads.
  apply IH.
Qed.

Lemma stable_strcmp lit : ∀ off, stable (λ d, strcmp d off lit).
Proof.
  induction lit as [|x lit IH]; intros off; simpl; follow_definition loads.
  apply IH.
Qed.

Lemma confined_strcmp lit : ∀ off, confined (λ d, strcmp d off lit).
Proof.
  induction lit as [|x lit IH]; intros off; simpl; follow_definition loads.
  apply IH.
Qed.

Ltac libc :=
  first [ loads
        | apply stable_memcmp | apply confined_memcmp
        | apply stable_memchr | apply confined_memchr
        | apply stable_strcmp | apply confined_strcmp ].

(** ** Script scanner: stability and confinement *)

Lemma stable_linenstr_loop needle hlen :
  ∀ haystack, stable (λ d, linenstr_loop d needle haystack hlen).
Proof.
  induction hlen as [|hlen IH]; intros haystack; simpl;
    follow_definition libc.
  apply IH.
Qed.

Lemma confined_linenstr_loop needle hlen :
  ∀ haystack, confined (λ d, linenstr_loop d needle haystack hlen).
Proof.
  induction hlen as [|hlen IH]; intros haystack; simpl;
    follow_definition libc.
  apply IH.
Qed.

Lemma stable_is_magic_script_dgsh_program len :
  stable (λ d, is_magic_script_dgsh_program d len).
Proof.
  unfold is_magic_script_dgsh_program. follow_definition libc.
  destruct a; follow_definition libc.
Qed.

Lemma confined_is_magic_script_dgsh_program len :
  confined (λ d, is_magic_script_dgsh_program d len).
Proof.
  unfold is_magic_script_dgsh_program. follow_definition libc.
  destruct a; follow_definition libc.
Qed.

Ltac script :=
  first [ libc
        | apply stable_linenstr_loop | apply confined_linenstr_loop
        | apply stable_is_magic_script_dgsh_program
        | apply confined_is_magic_script_dgsh_program ].

Lemma stable_is_script_dgsh_program len :
  stable (λ d, is_script_dgsh_program d len).
Proof.
  unfold is_script_dgsh_program, linenstr. follow_definition script.
Qed.

Lemma confined_is_script_dgsh_program len :
  confined (λ d, is_script_dgsh_program d len).
Proof.
  unfold is_script_dgsh_program, linenstr. follow_definition script.
Qed.

(** ** ELF walker: stability and confinement *)

Lemma stable_has_dgsh_section_body L shdr strTab i :
  stable (λ d, has_dgsh_section_body L d shdr strTab i).
Proof.
  unfold has_dgsh_section_body, load_off, load32. follow_definition libc.
Qed.

Lemma confined_has_dgsh_section_body L shdr strTab i :
  confined (λ d, has_dgsh_section_body L d shdr strTab i).
Proof.
  unfold has_dgsh_section_body, load_off, load32. follow_definition libc.
Qed.

Lemma stable_has_dgsh_section_loop L shdr strTab n :
  ∀ i, stable (λ d, has_dgsh_section_loop L d shdr strTab i n).
Proof.
  induction n as [|n IH]; intros i; simpl.
  - apply stable_ret.
  - apply stable_bind; [apply stable_has_dgsh_section_body | intros hit].
    destruct hit; [apply stable_ret | apply IH].
Qed.

Lemma confined_has_dgsh_section_loop L shdr strTab n :
  ∀ i, confined (λ d, has_dgsh_section_loop L d shdr strTab i n).
Proof.
  induction n as [|n IH]; intros i; simpl.
  - apply confined_ret.
  - apply confined_bind; [apply confined_has_dgsh_section_body | intros hit].
    destruct hit; [apply confined_ret | apply IH].
Qed.

Ltac elf :=
  first [ libc
        | apply stable_has_dgsh_section_loop
        | apply confined_has_dgsh_section_loop ].

Lemma stable_is_elf_dgsh_program : stable is_elf_dgsh_program.
Proof.
  unfold is_elf_dgsh_program, has_dgsh_section_32, has_dgsh_section_64,
    has_dgsh_section, load16, load32, load64.
  follow_definition elf.
Qed.

Lemma confined_is_elf_dgsh_program : confined is_elf_dgsh_program.
Proof.
  unfold is_elf_dgsh_program, has_dgsh_section_32, has_dgsh_section_64,
    has_dgsh_section, load16, load32, load64.
  follow_definition elf.
Qed.

Lemma stable_dispatch file_size : stable (λ d, dispatch d file_size).
Proof.
  unfold dispatch.
  follow_definition ltac:(first
    [ libc | apply stable_is_script_dgsh_program
    | apply stable_is_elf_dgsh_program ]).
Qed.

Lemma confined_dispatch file_size : confined (λ d, dispatch d file_size).
Proof.
  unfold dispatch.
  follow_definition ltac:(first
    [ libc | apply confined_is_script_dgsh_program
    | apply confined_is_elf_dgsh_program ]).
Qed.

(** ** The ELF header view and the walker *)

Lemma load_bytes_in n : ∀ data off,
  0 ≤ off → off + Z.of_nat n ≤ Z.of_nat (length data) →
  Z.of_nat (length data) < 2 ^ 64 →
  load_bytes data off n = Done (take n (drop (Z.to_nat off) data)).
Proof.
  induction n as [|n IH]; intros data off Hoff Hlen Hsz; simpl.
  - by rewrite take_0.
  - destruct (load8_in data off) as [b Hb]; [lia |]. rewrite Hb. simpl.
    apply load8_Done in Hb as [_ Hb].
    rewrite ptr_add_small by lia. rewrite IH by lia. simpl.
    rewrite (drop_S _ _ _ Hb). simpl.
    by replace (Z.to_nat (off + 1)) with (S (Z.to_nat off)) by lia.
Qed.

Lemma load_bytes_out n : ∀ data off,
  0 ≤ off → Z.of_nat (length data) < 2 ^ 64 → (0 < n)%nat →
  Z.of_nat (length data) < off + Z.of_nat n →
  ∃ o, load_bytes data off n = OutOfBounds o ∧ Z.of_nat (length data) ≤ o.
Proof.
  induction n as [|n IH]; intros data off Hoff Hsz Hn Hout; [lia |].
  simpl. destruct (load8 data off) as [b|o] eqn:Hb; simpl.
  - apply load8_Done in Hb as [_ Hb%lookup_lt_Some].
    destruct (IH data (ptr_add off 1)) as (o & Ho & Hlen).
    + apply ptr_add_range.
    + done.
    + lia.
    + rewrite ptr_add_small; lia.
    + rewrite Ho. eauto.
  - apply load8_OutOfBounds in Hb as [-> ?]. exists off. split; [done | lia].
Qed.

Lemma load_bytes_length n : ∀ data off bs,
  load_bytes data off n = Done bs → length bs = n.
Proof.
  induction n as [|n IH]; intros data off bs; simpl.
  - by intros [= <-].
  - intros (b & _ & (bs' & Hbs' & [= <-])%bind_Done)%bind_Done.
    simpl. f_equal. eauto.
Qed.

(** Once the header view exists, the walker is the section scan with the
    string table base loaded from [strtab_field]. *)
Lemma is_elf_dgsh_program_read_ehdr data h :
  read_ehdr data = Done (Some h) →
  is_elf_dgsh_program data =
    sh_offset ← load_off (e_class h) data (strtab_field h);
    has_dgsh_section (e_class h) data (ptr_add 0 (e_shoff h))
      (ptr_add 0 sh_offset) (e_shnum h).
Proof.
  unfold read_ehdr, is_elf_dgsh_program.
  intros (c & -> & H)%bind_Done. simpl. case_bool_decide; [done |].
  apply bind_Done in H as (arch & -> & H). simpl.
  unfold layout_of_class in H.
  repeat case_bool_decide; try done;
    apply bind_Done in H as (shoff & Hshoff & H);
    apply bind_Done in H as (shnum & Hshnum & H);
    apply bind_Done in H as (shstrndx & Hshstrndx & [= <-]);
    unfold strtab_field, shdr_entry; simpl.
  - change (load32 data 32) with (load_off elf32 data (e_shoff_at elf32)).
    rewrite Hshoff. simpl.
    change (load16 data 50) with (load16 data (e_shstrndx_at elf32)).
    rewrite Hshstrndx. simpl.
    change (load16 data 48) with (load16 data (e_shnum_at elf32)).
    by rewrite Hshnum.
  - change (load64 data 40) with (load_off elf64 data (e_shoff_at elf64)).
    rewrite Hshoff. simpl.
    change (load16 data 62) with (load16 data (e_shstrndx_at elf64)).
    rewrite Hshstrndx. simpl.
    change (load16 data 60) with (load16 data (e_shnum_at elf64)).
    by rewrite Hshnum.
Qed.

Lemma is_elf_dgsh_program_not_elf data :
  read_ehdr data = Done None → is_elf_dgsh_program data = Done 0.
Proof.
  unfold read_ehdr, is_elf_dgsh_program.
  intros (c & -> & H)%bind_Done. simpl. case_bool_decide; [done |].
  apply bind_Done in H as (arch & -> & H). simpl.
  unfold layout_of_class in H. repeat case_bool_decide; try done.
  - by apply bind_Done in H as (? & _ & (? & _ & (? & _ & ?)%bind_Done)%bind_Done).
  - by apply bind_Done in H as (? & _ & (? & _ & (? & _ & ?)%bind_Done)%bind_Done).
Qed.

(** ** The section scan *)

Section scan.
Context (L : elf_layout) (data : list Z) (shdr strTab : Z).

Local Abbreviation body := (has_dgsh_section_body L data shdr strTab).
Local Abbreviation loop := (has_dgsh_section_loop L data shdr strTab).

Lemma has_dgsh_section_loop_Done n : ∀ i r k,
  loop i n = Done (r, k) →
  (r = 1 ∧ i ≤ k < i + Z.of_nat n ∧ body k = Done true
     ∧ ∀ j, i ≤ j < k → body j = Done false)
  ∨ (r = 0 ∧ k = i + Z.of_nat n
     ∧ ∀ j, i ≤ j < i + Z.of_nat n → body j = Done false).
Proof.
  induction n as [|n IH]; intros i r k; [| rewrite Nat2Z.inj_succ]; simpl.
  - intros [= <- <-]. right. repeat split; lia.
  - intros ([] & Hb & H)%bind_Done.
    + injection H as <- <-. left. repeat split; try done; lia.
    + apply IH in H as [(-> & ? & ? & Hj) | (-> & -> & Hj)].
      * left. repeat split; try done; try lia.
        intros j ?. destruct (decide (j = i)) as [-> | ?]; [done |].
        apply Hj. lia.
      * right. repeat split; try lia.
        intros j ?. destruct (decide (j = i)) as [-> | ?]; [done |].
        apply Hj. lia.
Qed.

Lemma has_dgsh_section_loop_false n : ∀ i,
  (∀ j, i ≤ j < i + Z.of_nat n → body j = Done false) →
  loop i n = Done (0, i + Z.of_nat n).
Proof.
  induction n as [|n IH]; intros i; [| rewrite Nat2Z.inj_succ];
    intros Hj; simpl.
  - do 2 f_equal. lia.
  - rewrite Hj by lia. simpl. rewrite IH.
    + do 2 f_equal. lia.
    + intros j ?. apply Hj. lia.
Qed.

Lemma has_dgsh_section_hit shNum i :
  0 ≤ i < shNum → body i = Done true →
  is_done (has_dgsh_section L data shdr strTab shNum) = true →
  has_dgsh_section L data shdr strTab shNum = Done 1.
Proof.
  intros Hi Hb. unfold has_dgsh_section.
  destruct (loop 0 (Z.to_nat shNum)) as [[r k]|o] eqn:E; [intros _ | done].
  simpl. f_equal.
  apply has_dgsh_section_loop_Done in E as [(-> & _) | (_ & _ & Hj)];
    [done |].
  rewrite Hj in Hb; [done | lia].
Qed.

Lemma has_dgsh_section_miss shNum :
  (∀ j, 0 ≤ j < shNum → body j = Done false) →
  has_dgsh_section L data shdr strTab shNum = Done 0.
Proof.
  intros Hj. unfold has_dgsh_section.
  rewrite has_dgsh_section_loop_false; [done |].
  intros j ?. apply Hj. lia.
Qed.

(** The body in terms of the section's name and note. *)
Lemma has_dgsh_section_body_other_name i :
  section_named L data shdr strTab note_ident i = Done false →
  body i = Done false.
Proof.
  unfold section_named, has_dgsh_section_body.
  intros (nm & -> & H)%bind_Done. simpl_outcome.
  apply bind_Done in H as (c & -> & [= Hc%bool_decide_eq_false]).
  simpl_outcome. by rewrite bool_decide_eq_true_2.
Qed.

Lemma has_dgsh_section_body_note_ident i note :
  section_named L data shdr strTab note_ident i = Done true →
  section_note L data shdr i = Done note →
  body i =
    n_namesz ← load32 data note;
    if bool_decide (n_namesz = sizeof_lit DGSH_NAME) then
      r ← memcmp data (ptr_add note nhdr_size) (c_string DGSH_NAME)
            (Z.to_nat (sizeof_lit DGSH_NAME));
      mret (bool_decide (r = 0))
    else mret false.
Proof.
  unfold section_named, section_note, has_dgsh_section_body.
  intros (nm & -> & H)%bind_Done. simpl_outcome.
  apply bind_Done in H as (c & -> & [= Hc%bool_decide_eq_true]).
  simpl_outcome. intros (off & -> & ->)%fmap_Done. simpl_outcome.
  rewrite bool_decide_eq_false_2; [done | by intros []].
Qed.
End scan.

(** ** Comparisons and the dispatch *)

Lemma load_bytes_Done n data off bs :
  (0 < n)%nat → 0 ≤ off → Z.of_nat (length data) < 2 ^ 64 →
  load_bytes data off n = Done bs ↔
  off + Z.of_nat n ≤ Z.of_nat (length data) ∧ bs = bytes_at data off n.
Proof.
  intros Hn Hoff Hsz. split.
  - intros H.
    destruct (decide (off + Z.of_nat n ≤ Z.of_nat (length data))) as [Hin|Hout].
    + split; [done |]. rewrite load_bytes_in in H by done. by injection H.
    + destruct (load_bytes_out n data off) as (o & Ho & _); [done.. | lia |].
      congruence.
  - intros [Hin ->]. by apply load_bytes_in.
Qed.

Lemma load_bytes_take n : ∀ m data off bs,
  (n ≤ m)%nat → load_bytes data off m = Done bs →
  load_bytes data off n = Done (take n bs).
Proof.
  induction n as [|n IH]; intros m data off bs Hnm H; [done |].
  destruct m as [|m]; [lia |]. cbn [load_bytes] in *.
  apply bind_Done in H as (b & -> & H). simpl_outcome.
  apply bind_Done in H as (bs' & Hbs' & [= <-]).
  rewrite (IH m _ _ _ ltac:(lia) Hbs'). done.
Qed.

Lemma memcmp_Done data off lit n r :
  memcmp data off lit n = Done r ↔
  ∃ bs, load_bytes data off n = Done bs
        ∧ r = if bool_decide (bs = take n lit) then 0 else 1.
Proof.
  unfold memcmp. rewrite bind_Done. split.
  - intros (bs & ? & [= <-]). eauto.
  - intros (bs & ? & ->). eauto.
Qed.

Lemma memcmp_equal data off lit n :
  memcmp data off lit n = Done 0 ↔ load_bytes data off n = Done (take n lit).
Proof.
  rewrite memcmp_Done. split.
  - intros (bs & ? & ?). case_bool_decide; [by subst | done].
  - intros H. eexists. split; [done |]. by rewrite bool_decide_eq_true_2.
Qed.

(** A buffer starting with the ELF magic number does not start with the
    shebang, so the dispatch passes it to the ELF walker. *)
Lemma dispatch_elf data file_size :
  memcmp data 0 ELFMAG SELFMAG = Done 0 →
  dispatch data file_size = is_elf_dgsh_program data.
Proof.
  intros H%memcmp_equal. unfold dispatch.
  apply (load_bytes_take 2) in H; [| unfold SELFMAG; lia].
  unfold memcmp. rewrite H. done.
Qed.

Lemma read_ehdr_magic data h :
  read_ehdr data = Done (Some h) → memcmp data 0 ELFMAG SELFMAG = Done 0.
Proof.
  unfold read_ehdr. intros (c & Hc & H)%bind_Done. rewrite Hc.
  case_bool_decide as Hc0; [done |]. f_equal.
  destruct (decide (c = 0)); [done | by destruct Hc0].
Qed.

Lemma classify_buffer_elf data h :
  read_ehdr data = Done (Some h) →
  classify_buffer data =
    strtab ← elf_strtab data h;
    has_dgsh_section (e_class h) data (ptr_add 0 (e_shoff h)) strtab
      (e_shnum h).
Proof.
  intros H. unfold classify_buffer.
  rewrite dispatch_elf by by eapply read_ehdr_magic.
  rewrite (is_elf_dgsh_program_read_ehdr _ _ H). unfold elf_strtab.
  by destruct (load_off _ _ _).
Qed.

(** ** The script scanner inside its window *)

Lemma bytes_at_cons data off n b :
  0 ≤ off → data !! Z.to_nat off = Some b →
  bytes_at data off (S n) = b :: bytes_at data (off + 1) n.
Proof.
  intros Hoff Hb. unfold bytes_at. rewrite (drop_S _ _ _ Hb).
  by replace (Z.to_nat (off + 1)) with (S (Z.to_nat off)) by lia.
Qed.

Lemma memcmp_in data off lit n :
  0 ≤ off → off + Z.of_nat n ≤ Z.of_nat (length data) →
  Z.of_nat (length data) < 2 ^ 64 →
  memcmp data off lit n =
    Done (if bool_decide (bytes_at data off n = take n lit) then 0 else 1).
Proof. intros. unfold memcmp. by rewrite load_bytes_in. Qed.

(** [memchr] finds the first occurrence, when the range it is given lies
    inside the memory. *)
Lemma memchr_in c n : ∀ data off,
  0 ≤ off → off + Z.of_nat n ≤ Z.of_nat (length data) →
  Z.of_nat (length data) < 2 ^ 64 →
  memchr data off c n =
    Done ((λ x : nat * Z, off + Z.of_nat x.1)
            <$> list_find (λ b, b = c) (bytes_at data off n)).
Proof.
  induction n as [|n IH]; intros data off Hoff Hin Hsz.
  - unfold bytes_at. by rewrite take_0.
  - cbn [memchr]. destruct (load8_in data off) as [b Hb]; [lia |].
    rewrite Hb. simpl_outcome. apply load8_Done in Hb as [_ Hb].
    rewrite (bytes_at_cons _ _ _ _ Hoff Hb). cbn [list_find].
    case_bool_decide as Hbc.
    + rewrite decide_True by done. simpl. do 2 f_equal. lia.
    + rewrite decide_False by done. rewrite ptr_add_small by lia.
      rewrite IH by lia. f_equal.
      destruct (list_find _ _) as [[i x]|]; simpl; [| done].
      f_equal. lia.
Qed.

Lemma memchr_more c n : ∀ n' data off q,
  (n ≤ n')%nat → memchr data off c n = Done (Some q) →
  memchr data off c n' = Done (Some q).
Proof.
  induction n as [|n IH]; intros n' data off q Hn H; [done |].
  destruct n' as [|n']; [lia |]. cbn [memchr] in *.
  apply bind_Done in H as (b & -> & H). simpl_outcome.
  case_bool_decide; [done |]. apply (IH n'); [lia | done].
Qed.

Section linenstr.
Context (data needle : list Z).

Local Abbreviation nlen := (Z.of_nat (length needle)).

(** Inside the memory the search always returns. *)
Lemma linenstr_loop_in hlen : ∀ haystack,
  0 ≤ haystack →
  haystack + Z.of_nat hlen ≤ Z.of_nat (length data) →
  Z.of_nat (length data) < 2 ^ 64 →
  ∃ r, linenstr_loop data needle haystack hlen = Done r.
Proof.
  induction hlen as [|hlen IH]; intros p Hp Hin Hsz; [by eexists |].
  cbn [linenstr_loop]. case_bool_decide as Hn; [| by eexists].
  destruct (load8_in data p) as [c ->]; [lia |]. simpl_outcome.
  case_bool_decide; [| by eexists].
  rewrite memcmp_in by lia. simpl_outcome.
  case_bool_decide; [by eexists |].
  rewrite ptr_add_small by lia. apply IH; lia.
Qed.

(** A position is returned only when the needle starts there and one more
    byte than the needle is left of the count. *)
Lemma linenstr_loop_Some hlen : ∀ haystack q,
  0 ≤ haystack → haystack + Z.of_nat hlen < 2 ^ 64 →
  linenstr_loop data needle haystack hlen = Done (Some q) →
  haystack ≤ q ∧ q + nlen < haystack + Z.of_nat hlen
  ∧ memcmp data q needle (length needle) = Done 0.
Proof.
  induction hlen as [|hlen IH]; intros p q Hp Hsz; [done |].
  cbn [linenstr_loop]. case_bool_decide as Hn; [| done].
  intros (c & _ & H)%bind_Done. case_bool_decide; [| done].
  apply bind_Done in H as (r & Hr & H). case_bool_decide as Hr0.
  - injection H as <-. subst r. repeat split; [lia | lia | done].
  - rewrite ptr_add_small in H by lia.
    apply IH in H as (? & ? & ?); [| lia..]. repeat split; [lia | lia | done].
Qed.

(** Without an occurrence that leaves a byte of the count, the result is
    the null pointer. *)
Lemma linenstr_loop_None hlen : ∀ haystack,
  0 ≤ haystack →
  haystack + Z.of_nat hlen ≤ Z.of_nat (length data) →
  Z.of_nat (length data) < 2 ^ 64 →
  (∀ q, haystack ≤ q → q + nlen < haystack + Z.of_nat hlen →
        bytes_at data q (length needle) ≠ needle) →
  linenstr_loop data needle haystack hlen = Done None.
Proof.
  induction hlen as [|hlen IH]; intros p Hp Hin Hsz Hno; [done |].
  cbn [linenstr_loop]. case_bool_decide as Hn; [| done].
  destruct (load8_in data p) as [c ->]; [lia |]. simpl_outcome.
  case_bool_decide; [| done].
  rewrite memcmp_in by lia. simpl_outcome. rewrite firstn_all.
  rewrite (bool_decide_eq_false_2 (bytes_at _ _ _ = _)) by (apply Hno; lia).
  rewrite bool_decide_eq_false_2 by done.
  rewrite ptr_add_small by lia. apply IH; [lia.. |].
  intros q ??. apply Hno; lia.
Qed.

(** Once a line feed is within the count, with room for the needle before
    the count ends, a larger count gives the same result. *)
Lemma linenstr_loop_more k : ∀ hlen hlen' haystack,
  nlen + Z.of_nat k < Z.of_nat hlen → (hlen ≤ hlen')%nat →
  0 ≤ haystack → haystack + Z.of_nat k < 2 ^ 64 →
  load8 data (haystack + Z.of_nat k) = Done newline →
  linenstr_loop data needle haystack hlen'
  = linenstr_loop data needle haystack hlen.
Proof.
  induction k as [|k IH]; intros hlen hlen' p Hk Hle Hp Hsz Hnl;
    (destruct hlen as [|hlen]; [lia |]); (destruct hlen' as [|hlen']; [lia |]);
    cbn [linenstr_loop]; rewrite !bool_decide_eq_true_2 by lia.
  - rewrite Z.add_0_r in Hnl. rewrite Hnl. simpl_outcome.
    by rewrite bool_decide_eq_false_2 by (by intros []).
  - destruct (load8 data p) as [c|] eqn:Hc; [simpl_outcome | done].
    case_bool_decide; [| done].
    destruct (memcmp data p needle (length needle)) as [r|];
      [simpl_outcome | done].
    case_bool_decide; [done |].
    rewrite ptr_add_small by lia. apply IH; try lia.
    by replace (p + 1 + Z.of_nat k) with (p + Z.of_nat (S k)) by lia.
Qed.
End linenstr.
(** ** The script scanner's checks *)

Lemma window_min len :
  (if bool_decide (len < MAX_LINE_LEN) then len else MAX_LINE_LEN)
  = Z.min len MAX_LINE_LEN.
Proof. case_bool_decide; lia. Qed.

Lemma linenstr_in data needle hlen :
  0 ≤ hlen ≤ Z.of_nat (length data) → Z.of_nat (length data) < 2 ^ 64 →
  ∃ r, linenstr data needle hlen = Done r.
Proof. intros. apply linenstr_loop_in; lia. Qed.

Lemma first_newline_Some window p :
  first_newline window = Some p →
  0 ≤ p < Z.of_nat (length window)
  ∧ list_find (λ b, b = newline) window = Some (Z.to_nat p, newline).
Proof.
  unfold first_newline.
  destruct (list_find _ window) as [[i x]|] eqn:E; [| done].
  intros [= <-]. pose proof E as (Hi%lookup_lt_Some & -> & _)%list_find_Some.
  simpl. rewrite Nat2Z.id. split; [lia | done].
Qed.

Lemma first_newline_None window :
  first_newline window = None →
  list_find (λ b, b = newline) window = None.
Proof. unfold first_newline. by destruct (list_find _ window). Qed.

Lemma memchr_window data w :
  0 ≤ w ≤ Z.of_nat (length data) → Z.of_nat (length data) < 2 ^ 64 →
  memchr data 0 newline (Z.to_nat w)
  = Done (first_newline (take (Z.to_nat w) data)).
Proof.
  intros Hw Hsz. rewrite memchr_in by lia. unfold first_newline, bytes_at.
  simpl. by destruct (list_find _ _) as [[i x]|].
Qed.

(** The second-line check in terms of the window: it holds exactly when a
    line feed is in the window, at least [sizeof(magic)] bytes of the window
    follow it, and the first six of them are the marker. *)
Lemma is_magic_script_dgsh_program_in data w :
  0 ≤ w ≤ Z.of_nat (length data) → Z.of_nat (length data) < 2 ^ 64 →
  is_magic_script_dgsh_program data w =
    Done (match first_newline (take (Z.to_nat w) data) with
          | None => 0
          | Some p =>
              if bool_decide (w - (p + 1) < 7) then 0
              else if bool_decide (bytes_at data (p + 1) 6 = chars magic)
                   then 1 else 0
          end).
Proof.
  intros Hw Hsz. unfold is_magic_script_dgsh_program.
  rewrite memchr_window by done. simpl_outcome.
  destruct (first_newline _) as [p|] eqn:E; [| done].
  apply first_newline_Some in E as [Hp _].
  rewrite length_take in Hp.
  rewrite ptr_add_small by lia.
  rewrite Z.mod_small by lia. change (sizeof_lit magic) with 7.
  replace (w - (p + 1 - 0)) with (w - (p + 1)) by lia.
  case_bool_decide; [done |].
  rewrite memcmp_in by (change (Z.to_nat (7 - 1)) with 6%nat; lia).
  simpl_outcome. change (Z.to_nat (7 - 1)) with 6%nat.
  change (take 6 (c_string magic)) with (chars magic).
  by repeat case_bool_decide.
Qed.

(** Inside its window the script scanner always returns 0 or 1. *)
Lemma is_script_dgsh_program_in data len :
  0 ≤ Z.min len MAX_LINE_LEN ≤ Z.of_nat (length data) →
  Z.of_nat (length data) < 2 ^ 64 →
  ∃ r, is_script_dgsh_program data len = Done r ∧ (r = 0 ∨ r = 1).
Proof.
  intros Hw Hsz. unfold is_script_dgsh_program. rewrite window_min.
  destruct (linenstr_in data "dgsh-wrap" _ Hw Hsz) as [a ->].
  simpl_outcome. destruct (found a); [by eauto |].
  destruct (linenstr_in data "--dgsh" _ Hw Hsz) as [b ->].
  simpl_outcome. destruct (found b); [by eauto |].
  destruct (linenstr_in data "env dgsh" _ Hw Hsz) as [c ->].
  simpl_outcome. destruct (found c); [by eauto |].
  rewrite is_magic_script_dgsh_program_in by done. simpl_outcome.
  eexists. split; [done |]. case_bool_decide; auto.
Qed.

(** When the second-line check holds, the script is compatible whatever
    the first-line searches return. *)
Lemma is_script_dgsh_program_magic data len :
  0 ≤ Z.min len MAX_LINE_LEN ≤ Z.of_nat (length data) →
  Z.of_nat (length data) < 2 ^ 64 →
  is_magic_script_dgsh_program data (Z.min len MAX_LINE_LEN) = Done 1 →
  is_script_dgsh_program data len = Done 1.
Proof.
  intros Hw Hsz Hmagic. unfold is_script_dgsh_program. rewrite window_min.
  destruct (linenstr_in data "dgsh-wrap" _ Hw Hsz) as [a ->].
  simpl_outcome. destruct (found a); [done |].
  destruct (linenstr_in data "--dgsh" _ Hw Hsz) as [b ->].
  simpl_outcome. destruct (found b); [done |].
  destruct (linenstr_in data "env dgsh" _ Hw Hsz) as [c ->].
  simpl_outcome. destruct (found c); [done |].
  by rewrite Hmagic.
Qed.

(** C5 (as amended): let the window be the first [min(len, 1024)] bytes of
    a script.  If the window contains a line feed, at least 7 bytes of the
    window follow the first one and they begin with the 6 bytes [#!dgsh],
    the script is classified as compatible.  If the window contains no line
    feed, or fewer than 6 bytes of the window follow the first one, the
    second-line check fails, without error. *)
Theorem second_line_magic data len :
  0 ≤ len ≤ Z.of_nat (length data) → Z.of_nat (length data) < 2 ^ 64 →
  (∀ p, first_newline (take (Z.to_nat (Z.min len MAX_LINE_LEN)) data) = Some p →
        7 ≤ Z.min len MAX_LINE_LEN - (p + 1) →
        bytes_at data (p + 1) 6 = chars magic →
        is_script_dgsh_program data len = Done 1)
  ∧ (first_newline (take (Z.to_nat (Z.min len MAX_LINE_LEN)) data) = None →
     is_magic_script_dgsh_program data (Z.min len MAX_LINE_LEN) = Done 0)
  ∧ (∀ p, first_newline (take (Z.to_nat (Z.min len MAX_LINE_LEN)) data) = Some p →
          Z.min len MAX_LINE_LEN - (p + 1) < 6 →
          is_magic_script_dgsh_program data (Z.min len MAX_LINE_LEN) = Done 0).
Proof.
  intros Hlen Hsz.
  assert (0 ≤ Z.min len MAX_LINE_LEN ≤ Z.of_nat (length data)) as Hw
    by (unfold MAX_LINE_LEN; lia).
  repeat split.
  - intros p Hp Hroom Hbytes. apply is_script_dgsh_program_magic; [done.. |].
    rewrite is_magic_script_dgsh_program_in, Hp by done.
    by rewrite bool_decide_eq_false_2, bool_decide_eq_true_2 by (done || lia).
  - intros Hnone. by rewrite is_magic_script_dgsh_program_in, Hnone.
  - intros p Hp Hroom. rewrite is_magic_script_dgsh_program_in, Hp by done.
    by rewrite bool_decide_eq_true_2 by lia.
Qed.

Lemma second_line_magic_witness :
  is_script_dgsh_program Fixture.magic_on_second_line 23 = Done 1
  ∧ is_magic_script_dgsh_program Fixture.one_line 12 = Done 0
  ∧ is_magic_script_dgsh_program Fixture.short_second_line 14 = Done 0.
Proof.
  split; [| split].
  - refine (proj1 (second_line_magic _ 23 _ _) 9 _ _ _);
      vm_compute; first [reflexivity | discriminate | split; discriminate].
  - refine (proj1 (proj2 (second_line_magic _ 12 _ _)) _);
      vm_compute; first [reflexivity | discriminate | split; discriminate].
  - refine (proj2 (proj2 (second_line_magic _ 14 _ _)) 9 _ _);
      vm_compute; first [reflexivity | discriminate | split; discriminate].
Defined.

(** C5, counterexample: the first line feed of the buffer is at offset
    1024 and is followed by [#!dgsh] and more bytes, but it is outside the
    window of 1024 bytes, so the script is not classified as compatible. *)
Lemma magic_after_long_first_line :
  first_newline Fixture.long_first_line = Some 1024
  ∧ bytes_at Fixture.long_first_line 1025 6 = chars magic
  ∧ Z.of_nat (length Fixture.long_first_line) = 1032
  ∧ classify_buffer Fixture.long_first_line = Done 0.
Proof. vm_compute. repeat split. Qed.

(** ** The first-line search *)

Lemma load8_app data ext off b :
  load8 data off = Done b → load8 (data ++ ext) off = Done b.
Proof. apply stable_load8. Qed.

Lemma memcmp_app data ext off lit n r :
  memcmp data off lit n = Done r → memcmp (data ++ ext) off lit n = Done r.
Proof. apply stable_memcmp. Qed.

Lemma memchr_app data ext off c n r :
  memchr data off c n = Done r → memchr (data ++ ext) off c n = Done r.
Proof. apply stable_memchr. Qed.

Lemma linenstr_loop_app data ext needle haystack hlen r :
  linenstr_loop data needle haystack hlen = Done r →
  linenstr_loop (data ++ ext) needle haystack hlen = Done r.
Proof. apply stable_linenstr_loop. Qed.

(** C10 (as amended): in the first-line search over the window of [min(len, 1024)]
    bytes, a token is reported at position [q] only if
    [q + strlen(token)] is strictly less than the window length: a byte of
    the window must follow the token.  So the occurrence that ends with the
    last byte of the window is never the one reported, and when the window
    ends with the token and the token does not occur at an earlier position
    of the window, the search returns the null pointer: the token
    contributes false. *)
Theorem token_needs_trailing_byte data len token :
  0 ≤ len ≤ Z.of_nat (length data) → Z.of_nat (length data) < 2 ^ 64 →
  (∀ q, linenstr data token (Z.min len MAX_LINE_LEN) = Done (Some q) →
        0 ≤ q ∧ q + strlen token < Z.min len MAX_LINE_LEN)
  ∧ linenstr data token (Z.min len MAX_LINE_LEN)
    ≠ Done (Some (Z.min len MAX_LINE_LEN - strlen token))
  ∧ (bytes_at data (Z.min len MAX_LINE_LEN - strlen token)
       (length (chars token)) = chars token →
     Forall (λ q, bytes_at data q (length (chars token)) ≠ chars token)
       (seqZ 0 (Z.min len MAX_LINE_LEN - strlen token)) →
     linenstr data token (Z.min len MAX_LINE_LEN) = Done None).
Proof.
  intros Hlen Hsz.
  assert (∀ q, linenstr data token (Z.min len MAX_LINE_LEN) = Done (Some q) →
               0 ≤ q ∧ q + strlen token < Z.min len MAX_LINE_LEN) as Hpos.
  { unfold linenstr, strlen, MAX_LINE_LEN. intros q H.
    apply linenstr_loop_Some in H as (? & ? & _); lia. }
  split; [done |]. split.
  - intros H%Hpos. lia.
  - unfold linenstr, strlen, MAX_LINE_LEN in *.
    intros _ Hno. apply linenstr_loop_None; [lia.. |].
    intros q ??. rewrite Forall_forall in Hno. apply Hno, elem_of_seqZ. lia.
Qed.

Lemma token_needs_trailing_byte_witness :
  linenstr Fixture.token_at_end "--dgsh" 16 = Done None.
Proof.
  refine (proj2 (proj2 (token_needs_trailing_byte Fixture.token_at_end 16
                          "--dgsh" _ _)) _ _).
  - vm_compute. split; discriminate.
  - vm_compute. reflexivity.
  - vm_compute. reflexivity.
  - apply (bool_decide_unpack _). vm_compute. exact I.
Defined.

(** C10, counterexample: the window ends with the last byte of [--dgsh],
    but the token also occurs at offset 3, followed by a byte: it is
    detected there, and the script is classified as compatible. *)
Lemma token_twice_is_detected :
  Z.of_nat (length Fixture.token_twice) = 16
  ∧ bytes_at Fixture.token_twice 10 6 = chars "--dgsh"
  ∧ linenstr Fixture.token_twice "--dgsh" 16 = Done (Some 3)
  ∧ classify_buffer Fixture.token_twice = Done 1.
Proof. vm_compute. repeat split. Qed.

(** C6 (as amended): a script beginning with [#!/bin/sh], a line feed,
    [echo dgsh-wrap] and a line feed is classified as not compatible,
    whatever follows: the token is on the second line, where the first-line
    search does not look, and the second line does not begin with the
    marker. *)
Theorem wrap_on_second_line_not_compatible rest :
  classify_buffer (Fixture.wrap_on_second_line ++ rest) = Done 0.
Proof.
  set (pre := Fixture.wrap_on_second_line).
  assert (Z.of_nat (length (pre ++ rest)) = 25 + Z.of_nat (length rest))
    as Hlen by (rewrite length_app; change (length pre) with 25%nat; lia).
  unfold classify_buffer, dispatch.
  rewrite (memcmp_app pre rest _ _ _ 0) by (vm_compute; reflexivity).
  simpl_outcome. rewrite bool_decide_eq_true_2 by done.
  unfold is_script_dgsh_program. rewrite window_min.
  set (w := Z.min _ MAX_LINE_LEN).
  assert (25 ≤ w ≤ 1024) as Hw by (unfold w, MAX_LINE_LEN; lia).
  assert (load8 (pre ++ rest) (0 + Z.of_nat 9) = Done newline) as Hnl
    by (apply load8_app; vm_compute; reflexivity).
  assert (∀ tok : string,
            Z.of_nat (length (chars tok)) + Z.of_nat 9 < Z.of_nat 25 →
            linenstr_loop pre (chars tok) 0 25 = Done None →
            linenstr (pre ++ rest) tok w = Done None) as Hline.
  { intros tok Hn Hpre. unfold linenstr.
    rewrite (linenstr_loop_more _ _ 9 25) by (done || lia).
    by apply linenstr_loop_app. }
  rewrite !Hline by (vm_compute; reflexivity). simpl_outcome.
  change (found None) with false. cbn iota.
  unfold is_magic_script_dgsh_program.
  rewrite (memchr_more _ 25 _ _ _ 9); [| lia |].
  2: { apply memchr_app. vm_compute. reflexivity. }
  simpl_outcome. change (ptr_add 9 1) with 10.
  rewrite Z.mod_small by lia. change (sizeof_lit magic) with 7.
  rewrite bool_decide_eq_false_2 by lia.
  rewrite (memcmp_app pre rest _ _ _ 1) by (vm_compute; reflexivity).
  done.
Qed.

(** C6, counterexample: the script of the claim is classified as not
    compatible, by the buffer classification and by [is_dgsh_program]. *)
Lemma wrap_on_second_line_rejected :
  classify_buffer Fixture.wrap_on_second_line = Done 0
  ∧ fst (is_dgsh_program
           (Fixture.world_of
              [("script"%string, Fixture.wrap_on_second_line)])
           "script") = Done 0.
Proof. vm_compute. repeat split. Qed.

(** ** The loader *)

Lemma mapped_region_length w b :
  b ≠ [] → 0 < page_size w →
  page_size w ≤ Z.of_nat (length (mapped_region w b)).
Proof.
  intros Hb Hps. unfold mapped_region. rewrite length_app, length_replicate.
  assert (0 < Z.of_nat (length b)) as Hn by (destruct b; [done | simpl; lia]).
  set (n := Z.of_nat (length b)) in *.
  pose proof (Z.mod_pos_bound (- n) (page_size w) Hps) as Hm.
  assert ((n + (- n) mod page_size w) mod page_size w = 0) as H0.
  { rewrite Z.add_mod_idemp_r by lia. replace (n + - n) with 0 by lia.
    by apply Z.mod_0_l, Z.neq_sym, Z.lt_neq. }
  rewrite Nat2Z.inj_add, Z2Nat.id by lia. fold n.
  apply Z.mod_divide in H0 as [q Hq]; [| lia].
  generalize dependent ((- n) mod page_size w). intros m ??.
  clearbody n. generalize dependent (page_size w). intros ps ???.
  assert (1 ≤ q) by (destruct (decide (q ≤ 0)); [nia | lia]). nia.
Qed.

(** What [is_dgsh_program] does with a file that can be opened and is not
    empty: the dispatch runs on the mapped pages, and when it returns, the
    descriptor and the mapping have been released. *)
Lemma is_dgsh_program_file w path b :
  files w !! path = Some b → b ≠ [] →
  is_dgsh_program w path =
    match dispatch (mapped_region w b) (Z.of_nat (length b)) with
    | Done r => (Done r, w)
    | OutOfBounds o =>
        (OutOfBounds o,
         {| files := files w; page_size := page_size w;
            open_fds := open_fds w;
            live_mappings := S (live_mappings w) |})
    end.
Proof.
  intros Hfile Hb. unfold is_dgsh_program, sys_open. rewrite Hfile.
  unfold sys_mmap, sys_lseek_end.
  rewrite bool_decide_eq_false_2 by (destruct b; [done | simpl; lia]).
  cbn [readable].
  change (mapped_region _ b) with (mapped_region w b).
  destruct (dispatch _ _); [| done]. by destruct w.
Qed.

Lemma is_dgsh_program_unopenable w path :
  files w !! path = None → is_dgsh_program w path = (Done 0, w).
Proof. intros H. unfold is_dgsh_program, sys_open. by rewrite H. Qed.

(** The zeros after the end of the file do not complete a prefix none of
    whose bytes is zero. *)
Lemma take_padding_ne (b lit : list Z) k n :
  length lit = n → Forall (λ x, x ≠ 0) lit →
  take n b ≠ lit → take n (b ++ replicate k 0) ≠ lit.
Proof.
  intros Hn Hnz Hne Heq.
  destruct (decide (n ≤ length b)%nat) as [Hle | Hgt].
  - by rewrite take_app_le in Heq.
  - assert (lit !! length b = Some 0) as H0.
    { rewrite <- Heq. rewrite lookup_take_lt by lia.
      rewrite lookup_app_r by lia. rewrite Nat.sub_diag.
      assert (length (take n (b ++ replicate k 0)) = n) as Hlen
        by by rewrite Heq.
      rewrite length_take, length_app, length_replicate in Hlen.
      destruct k; [lia | done]. }
    rewrite Forall_forall in Hnz.
    by apply (Hnz 0 (list_elem_of_lookup_2 _ _ _ H0)).
Qed.

(** The dispatch on a mapping of at least five bytes that starts neither
    with the shebang nor with an accepted ELF identification. *)
Lemma dispatch_unrecognized region file_size :
  (5 ≤ length region)%nat →
  take 2 region ≠ chars "#!" →
  (take 4 region ≠ ELFMAG
   ∨ ∃ arch, region !! 4%nat = Some arch ∧ arch ≠ 1 ∧ arch ≠ 2) →
  dispatch region file_size = Done 0.
Proof.
  intros Hlen Hsh Hmagic. rewrite <- (take_drop 5 region).
  apply stable_dispatch.
  assert (length (take 5 region) = 5%nat) as Hlen5
    by (rewrite length_take; lia).
  unfold dispatch. rewrite memcmp_in by (rewrite ?Hlen5; lia).
  unfold bytes_at. rewrite drop_0, take_take.
  change (2 `min` 5)%nat with 2%nat.
  rewrite (bool_decide_eq_false_2 (take 2 region = _)) by done.
  simpl_outcome. rewrite bool_decide_eq_false_2 by done.
  unfold is_elf_dgsh_program. rewrite memcmp_in by (rewrite ?Hlen5; unfold SELFMAG; lia).
  unfold bytes_at, SELFMAG. rewrite drop_0, take_take.
  change (4 `min` 5)%nat with 4%nat. change (take 4 ELFMAG) with ELFMAG.
  simpl_outcome. destruct Hmagic as [Hne | (arch & Harch & H1 & H2)].
  - rewrite (bool_decide_eq_false_2 (take 4 region = _)) by done.
    by rewrite bool_decide_eq_true_2.
  - destruct (bool_decide (take 4 region = ELFMAG));
      [| by rewrite bool_decide_eq_true_2].
    rewrite bool_decide_eq_false_2 by (by intros []).
    assert (load8 (take 5 region) EI_CLASS = Done arch) as ->.
    { apply load8_Done. split; [done |].
      change (Z.to_nat EI_CLASS) with 4%nat. by rewrite lookup_take_lt by lia. }
    simpl_outcome. by rewrite !bool_decide_eq_false_2.
Qed.

(** C7: a file that begins neither with [#!] nor with the ELF magic number,
    and a file that begins with the ELF magic number and whose class byte is
    neither 1 nor 2, are reported by [is_dgsh_program] as not compatible:
    the result is 0, the descriptor and the mapping are released, and [main]
    exits with status 2.  For such a buffer of at least five bytes the
    classification also stays inside the buffer. *)
Theorem unrecognized_is_not_compatible w path b :
  files w !! path = Some b → b ≠ [] → 5 ≤ page_size w →
  (take 2 b ≠ chars "#!" → take 4 b ≠ ELFMAG →
   is_dgsh_program w path = (Done 0, w) ∧ main w path = Done 2)
  ∧ (∀ arch, take 4 b = ELFMAG → b !! 4%nat = Some arch →
             arch ≠ 1 → arch ≠ 2 →
             is_dgsh_program w path = (Done 0, w) ∧ main w path = Done 2)
  ∧ ((5 ≤ length b)%nat → take 2 b ≠ chars "#!" →
     take 4 b ≠ ELFMAG
     ∨ (∃ arch, b !! 4%nat = Some arch ∧ arch ≠ 1 ∧ arch ≠ 2) →
     classify_buffer b = Done 0).
Proof.
  intros Hfile Hb Hps.
  pose proof (mapped_region_length w b Hb ltac:(lia)) as Hlen.
  assert (dispatch (mapped_region w b) (Z.of_nat (length b)) = Done 0 →
          is_dgsh_program w path = (Done 0, w) ∧ main w path = Done 2)
    as Hzero.
  { intros H. unfold main. rewrite (is_dgsh_program_file _ _ _ Hfile Hb), H.
    done. }
  split; [| split].
  - intros Hsh Hmagic. apply Hzero, dispatch_unrecognized; [lia | |].
    + by apply take_padding_ne; [| repeat constructor |].
    + left. by apply take_padding_ne; [| repeat constructor |].
  - intros arch Hmagic Harch H1 H2.
    assert (4 < length b)%nat by by apply lookup_lt_Some in Harch.
    apply Hzero, dispatch_unrecognized; [lia | |]; unfold mapped_region.
    + rewrite take_app_le by lia.
      replace (take 2 b) with (take 2 (take 4 b))
        by (rewrite take_take; f_equal; lia).
      by rewrite Hmagic.
    + right. exists arch. rewrite lookup_app_l by lia. done.
  - intros. by apply dispatch_unrecognized.
Qed.

Lemma unrecognized_is_not_compatible_witness :
  (is_dgsh_program (Fixture.world_of [("notes"%string, Fixture.plain_text)])
     "notes"
   = (Done 0, Fixture.world_of [("notes"%string, Fixture.plain_text)])
   ∧ main (Fixture.world_of [("notes"%string, Fixture.plain_text)]) "notes"
     = Done 2)
  ∧ (is_dgsh_program (Fixture.world_of [("core"%string, ELFMAG ++ [3])])
       "core"
     = (Done 0, Fixture.world_of [("core"%string, ELFMAG ++ [3])])
     ∧ main (Fixture.world_of [("core"%string, ELFMAG ++ [3])]) "core"
       = Done 2).
Proof.
  split.
  - refine (proj1 (unrecognized_is_not_compatible _ "notes"
                     Fixture.plain_text _ _ _) _ _);
      vm_compute; first [reflexivity | discriminate].
  - refine (proj1 (proj2 (unrecognized_is_not_compatible _ "core"
                            (ELFMAG ++ [3]) _ _ _)) 3 _ _ _ _);
      vm_compute; first [reflexivity | discriminate].
Defined.

(** C3 (as amended): for every path whose file cannot be opened,
    [is_dgsh_program] returns 0 and leaves the process as it was; this is
    the value it returns for a file that is not compatible, and [main] exits
    with status 2 in both cases. *)
Theorem unopenable_is_reported_as_zero w path :
  files w !! path = None →
  is_dgsh_program w path = (Done 0, w)
  ∧ main w path = Done 2
  ∧ (∀ path', fst (is_dgsh_program w path') = Done 0 →
              fst (is_dgsh_program w path') = fst (is_dgsh_program w path)
              ∧ main w path' = main w path).
Proof.
  intros H. pose proof (is_dgsh_program_unopenable _ _ H) as Hr.
  unfold main. rewrite Hr. split; [done |]. split; [done |].
  by intros path' ->.
Qed.

Lemma unopenable_is_reported_as_zero_witness :
  is_dgsh_program (Fixture.world_of [("notes"%string, Fixture.plain_text)])
    "missing"
  = (Done 0, Fixture.world_of [("notes"%string, Fixture.plain_text)]).
Proof.
  refine (proj1 (unopenable_is_reported_as_zero _ "missing" _)).
  vm_compute. reflexivity.
Defined.

(** C3, counterexample: a path that cannot be opened yields the result 0,
    which is also the result for a readable file that is not compatible;
    no failure distinct from false is reported. *)
Lemma unopenable_same_as_not_compatible :
  files (Fixture.world_of [("notes"%string, Fixture.plain_text)])
    !! "missing"%string = None
  ∧ fst (is_dgsh_program
           (Fixture.world_of [("notes"%string, Fixture.plain_text)])
           "missing") = Done 0
  ∧ fst (is_dgsh_program
           (Fixture.world_of [("notes"%string, Fixture.plain_text)])
           "notes") = Done 0.
Proof. vm_compute. repeat split. Qed.

(** A file of length zero: [mmap] fails with [MAP_FAILED], which the test
    [data == NULL] does not catch, and the comparison with the shebang
    reads through that pointer. *)
Example empty_file_is_read_through_map_failed :
  fst (is_dgsh_program
         (Fixture.world_of [("empty"%string, Fixture.empty_file)]) "empty")
  = OutOfBounds 0.
Proof. vm_compute. reflexivity. Qed.

(** The marker at the very end of the file: six bytes follow the line
    feed, one fewer than [sizeof(magic)]. *)
Example magic_at_end_of_file :
  classify_buffer Fixture.magic_at_end = Done 0.
Proof. vm_compute. reflexivity. Qed.

(** ** Repeated classification *)

Lemma is_dgsh_program_environment w path :
  files (snd (is_dgsh_program w path)) = files w
  ∧ page_size (snd (is_dgsh_program w path)) = page_size w.
Proof.
  unfold is_dgsh_program, sys_open, sys_mmap.
  destruct (files w !! path) as [b|]; [| done].
  case_bool_decide; cbn [readable].
  - by destruct (dispatch _ _).
  - by destruct (dispatch _ _).
Qed.

Lemma is_dgsh_program_depends_on w w' path path' :
  files w !! path = files w' !! path' → page_size w = page_size w' →
  fst (is_dgsh_program w path) = fst (is_dgsh_program w' path').
Proof.
  intros Hfile Hps. unfold is_dgsh_program, sys_open, sys_mmap.
  rewrite <- Hfile. destruct (files w !! path) as [b|]; [| done].
  case_bool_decide; cbn [readable].
  - by destruct (dispatch _ _).
  - unfold mapped_region. cbn [page_size]. rewrite <- Hps.
    by destruct (dispatch _ _).
Qed.

Lemma is_dgsh_program_releases w path r :
  fst (is_dgsh_program w path) = Done r → snd (is_dgsh_program w path) = w.
Proof.
  destruct (files w !! path) as [b|] eqn:Hfile.
  - destruct (decide (b = [])) as [-> | Hb].
    + unfold is_dgsh_program, sys_open, sys_mmap. rewrite Hfile.
      by rewrite bool_decide_eq_true_2.
    + rewrite (is_dgsh_program_file _ _ _ Hfile Hb).
      by destruct (dispatch _ _).
  - by rewrite is_dgsh_program_unopenable.
Qed.

(** C9 (as amended): whenever [is_dgsh_program] returns, that is, all its
    reads stay inside the pages mapped for the file, the result is
    repeatable: the process is left as it was found, a second call on the
    same path returns the same result, so does a call on any file with the
    same content, and the result does not depend on the memory that lies
    after the mapping. *)
Theorem classification_is_repeatable w path r :
  fst (is_dgsh_program w path) = Done r →
  snd (is_dgsh_program w path) = w
  ∧ fst (is_dgsh_program (snd (is_dgsh_program w path)) path) = Done r
  ∧ (∀ w' path',
       files w' !! path' = files w !! path → page_size w' = page_size w →
       fst (is_dgsh_program w' path') = Done r)
  ∧ (∀ b neighbour,
       files w !! path = Some b → classify_mapped w b neighbour = Done r).
Proof.
  intros Hr. pose proof (is_dgsh_program_releases _ _ _ Hr) as Hw.
  split; [done |]. split; [by rewrite Hw |]. split.
  - intros w' path' Hfile Hps. rewrite <- Hr.
    by apply is_dgsh_program_depends_on.
  - intros b neighbour Hfile. unfold classify_mapped.
    apply stable_dispatch.
    destruct (decide (b = [])) as [-> | Hb].
    + unfold is_dgsh_program, sys_open, sys_mmap in Hr. rewrite Hfile in Hr.
      by rewrite bool_decide_eq_true_2 in Hr.
    + rewrite (is_dgsh_program_file _ _ _ Hfile Hb) in Hr.
      by destruct (dispatch _ _).
Qed.

Lemma classification_is_repeatable_witness :
  classify_mapped
    (Fixture.world_of
       [("a.out"%string, Fixture.elf64_with_note 2 1 Fixture.dgsh_note)])
    (Fixture.elf64_with_note 2 1 Fixture.dgsh_note)
    Fixture.neighbour_with_note
  = Done 1.
Proof.
  refine (proj2 (proj2 (proj2 (classification_is_repeatable
                                 (Fixture.world_of
                                    [("a.out"%string,
                                      Fixture.elf64_with_note 2 1
                                        Fixture.dgsh_note)])
                                 "a.out" 1 _)))
            (Fixture.elf64_with_note 2 1 Fixture.dgsh_note)
            Fixture.neighbour_with_note _);
    vm_compute; reflexivity.
Defined.

(** C9, counterexample: one file, a 64-byte header that places the section
    header table at offset 4096, just after the page mapped for it.  The
    walker reads there, and the result follows the memory after the mapping:
    1 when it holds a section with a dgsh note, 0 when it holds zeros.  The
    content of the file does not determine the result. *)
Lemma result_follows_neighbouring_memory :
  classify_mapped
    (Fixture.world_of [("a.out"%string, Fixture.shoff_beyond_end)])
    Fixture.shoff_beyond_end Fixture.neighbour_with_note = Done 1
  ∧ classify_mapped
      (Fixture.world_of [("a.out"%string, Fixture.shoff_beyond_end)])
      Fixture.shoff_beyond_end Fixture.neighbour_of_zeros = Done 0
  ∧ fst (is_dgsh_program
           (Fixture.world_of [("a.out"%string, Fixture.shoff_beyond_end)])
           "a.out") = OutOfBounds 4120.
Proof. vm_compute. repeat split. Qed.

(** ** Bounds on the scans *)

Ltac outcome_cases H :=
  repeat first
    [ apply bind_Done in H as (? & _ & H)
    | match type of H with
      | (if ?b then _ else _) = Done _ => destruct b
      | match ?o with Some _ => _ | None => _ end = Done _ => destruct o
      | mret _ = Done _ => injection H as <-
      | Done _ = Done _ => injection H as <-
      end ].

Lemma is_script_dgsh_program_range data len r :
  is_script_dgsh_program data len = Done r → r = 0 ∨ r = 1.
Proof.
  unfold is_script_dgsh_program. intros H. outcome_cases H; auto.
  case_bool_decide; auto.
Qed.

Lemma has_dgsh_section_range L data shdr strTab shNum r :
  has_dgsh_section L data shdr strTab shNum = Done r → r = 0 ∨ r = 1.
Proof.
  unfold has_dgsh_section. intros ([r' k] & H & ->)%fmap_Done. simpl.
  apply has_dgsh_section_loop_Done in H as [(-> & _) | (-> & _)]; auto.
Qed.

#[local] Opaque has_dgsh_section.

Lemma is_elf_dgsh_program_range data r :
  is_elf_dgsh_program data = Done r → r = 0 ∨ r = 1.
Proof.
  unfold is_elf_dgsh_program, has_dgsh_section_32, has_dgsh_section_64.
  intros H. outcome_cases H; auto; by eapply has_dgsh_section_range.
Qed.

#[local] Transparent has_dgsh_section.

Lemma classify_buffer_range buffer r :
  classify_buffer buffer = Done r → r = 0 ∨ r = 1.
Proof.
  unfold classify_buffer, dispatch. intros (c & _ & H)%bind_Done.
  case_bool_decide.
  - by eapply is_script_dgsh_program_range.
  - by eapply is_elf_dgsh_program_range.
Qed.

(** C8: classification of a buffer ends, either with the result 0 or 1 or
    at a read outside the buffer.  The script scan reads only inside the
    window of the first [min(length, 1024)] bytes: run on the window alone
    it returns, and returns what it returns on the whole buffer.  For an ELF
    buffer the result is that of the section loop run for the section count
    [e_shnum] declared in the header: the loop is left with a counter [i]
    after at most [e_shnum] executions of its body, every section before [i]
    having been passed over, and the result is 0 exactly when each of the
    declared sections, and no other, has been passed over. *)
Theorem scans_are_bounded buffer :
  Z.of_nat (length buffer) < 2 ^ 64 →
  match classify_buffer buffer with
  | Done r => r = 0 ∨ r = 1
  | OutOfBounds o => o < 0 ∨ Z.of_nat (length buffer) ≤ o
  end
  ∧ (∃ r,
       is_script_dgsh_program
         (take (Z.to_nat (Z.min (Z.of_nat (length buffer)) MAX_LINE_LEN))
            buffer)
         (Z.of_nat (length buffer)) = Done r
       ∧ is_script_dgsh_program buffer (Z.of_nat (length buffer)) = Done r)
  ∧ (∀ h strtab,
       read_ehdr buffer = Done (Some h) →
       elf_strtab buffer h = Done strtab →
       match has_dgsh_section_loop (e_class h) buffer (ptr_add 0 (e_shoff h))
               strtab 0 (Z.to_nat (e_shnum h))
       with
       | Done (r, i) =>
           classify_buffer buffer = Done r
           ∧ 0 ≤ i ∧ i + r ≤ Z.max 0 (e_shnum h)
           ∧ ∀ j, 0 ≤ j < i →
                  elf_section_matches buffer h strtab j = Done false
       | OutOfBounds o => classify_buffer buffer = OutOfBounds o
       end)
  ∧ (∀ h strtab,
       read_ehdr buffer = Done (Some h) →
       elf_strtab buffer h = Done strtab →
       classify_buffer buffer = Done 0
       ↔ ∀ j, 0 ≤ j < e_shnum h →
              elf_section_matches buffer h strtab j = Done false).
Proof.
  intros Hsz. split; [| split; [| split]].
  - destruct (classify_buffer buffer) as [r|o] eqn:E.
    + by eapply classify_buffer_range.
    + by apply (confined_dispatch _ _ _ E).
  - set (len := Z.of_nat (length buffer)).
    set (w := Z.to_nat (Z.min len MAX_LINE_LEN)).
    destruct (is_script_dgsh_program_in (take w buffer) len) as (r & Hr & _).
    + rewrite length_take. unfold w, len, MAX_LINE_LEN. lia.
    + rewrite length_take. lia.
    + exists r. split; [done |].
      rewrite <- (take_drop w buffer) at 1.
      by apply stable_is_script_dgsh_program.
  - intros h strtab Hh Hstrtab.
    rewrite (classify_buffer_elf _ _ Hh), Hstrtab. simpl_outcome.
    unfold has_dgsh_section, elf_section_matches.
    destruct (has_dgsh_section_loop _ _ _ _ _ _) as [[r i]|] eqn:E; [| done].
    split; [done |].
    apply has_dgsh_section_loop_Done in E
      as [(-> & ? & _ & Hj) | (-> & -> & Hj)].
    + split; [lia |]. split; [lia |]. intros j ?. apply Hj. lia.
    + split; [lia |]. split; [lia |]. intros j ?. apply Hj. lia.
  - intros h strtab Hh Hstrtab.
    rewrite (classify_buffer_elf _ _ Hh), Hstrtab. simpl_outcome.
    unfold elf_section_matches. split.
    + unfold has_dgsh_section.
      intros ([r k] & Hloop & [= Hr])%fmap_Done. simpl in Hr. subst r.
      apply has_dgsh_section_loop_Done in Hloop
        as [(? & _) | (_ & _ & Hj)]; [done |].
      intros j ?. apply Hj. lia.
    + apply has_dgsh_section_miss.
Qed.

Lemma scans_are_bounded_witness :
  (∃ r,
     is_script_dgsh_program
       (take (Z.to_nat (Z.min (Z.of_nat (length Fixture.long_first_line))
                          MAX_LINE_LEN))
          Fixture.long_first_line)
       (Z.of_nat (length Fixture.long_first_line)) = Done r
     ∧ is_script_dgsh_program Fixture.long_first_line
         (Z.of_nat (length Fixture.long_first_line)) = Done r)
  ∧ classify_buffer Fixture.no_note_section = Done 0.
Proof.
  split.
  - assert (Z.of_nat (length Fixture.long_first_line) < 2 ^ 64) as Hsz
      by (vm_compute; reflexivity).
    destruct (scans_are_bounded Fixture.long_first_line Hsz) as (_ & H & _).
    exact H.
  - assert (Z.of_nat (length Fixture.no_note_section) < 2 ^ 64) as Hsz
      by (vm_compute; reflexivity).
    destruct (scans_are_bounded Fixture.no_note_section Hsz)
      as (_ & _ & _ & H).
    refine (proj2 (H {| e_class := elf64; e_shoff := 64; e_shnum := 2;
                        e_shstrndx := 1 |} 192 _ _) _).
    + vm_compute. reflexivity.
    + vm_compute. reflexivity.
    + intros j Hj. assert (j = 0 ∨ j = 1) as [-> | ->] by (cbn in Hj; lia);
        vm_compute; reflexivity.
Defined.

(** ** Reads at offsets taken from the header *)

Lemma read_ehdr_class data h :
  read_ehdr data = Done (Some h) → e_class h = elf32 ∨ e_class h = elf64.
Proof.
  unfold read_ehdr. intros (c & _ & H)%bind_Done.
  case_bool_decide; [done |]. apply bind_Done in H as (arch & _ & H).
  unfold layout_of_class in H.
  repeat case_bool_decide; try done;
    apply bind_Done in H as (? & _ & (? & _ & (? & _ & [= <-])%bind_Done)%bind_Done);
    auto.
Qed.

Lemma word_bytes_pos data h :
  read_ehdr data = Done (Some h) → (0 < word_bytes (e_class h))%nat.
Proof. intros [-> | ->]%read_ehdr_class; simpl; lia. Qed.

Lemma elf_strtab_in data h :
  Z.of_nat (length data) < 2 ^ 64 →
  strtab_field h + Z.of_nat (word_bytes (e_class h))
    ≤ Z.of_nat (length data) →
  elf_strtab data h =
    Done (ptr_add 0 (le_value (bytes_at data (strtab_field h)
                                 (word_bytes (e_class h))))).
Proof.
  intros Hsz Hin. unfold elf_strtab, load_off.
  rewrite load_bytes_in; [done | | done..].
  unfold strtab_field. apply ptr_add_range.
Qed.

Lemma elf_strtab_out data h :
  Z.of_nat (length data) < 2 ^ 64 →
  read_ehdr data = Done (Some h) →
  Z.of_nat (length data)
    < strtab_field h + Z.of_nat (word_bytes (e_class h)) →
  ∃ o, Z.of_nat (length data) ≤ o ∧ elf_strtab data h = OutOfBounds o.
Proof.
  intros Hsz Hh Hout. unfold elf_strtab, load_off.
  destruct (load_bytes_out (word_bytes (e_class h)) data (strtab_field h))
    as (o & -> & Ho); [| done | by eapply word_bytes_pos | done |].
  - unfold strtab_field. apply ptr_add_range.
  - by exists o.
Qed.

Lemma load32_out data off :
  Z.of_nat (length data) < 2 ^ 64 → 0 ≤ off →
  Z.of_nat (length data) < off + 4 →
  ∃ o, Z.of_nat (length data) ≤ o ∧ load32 data off = OutOfBounds o.
Proof.
  intros Hsz Hoff Hout. unfold load32.
  destruct (load_bytes_out 4 data off) as (o & -> & Ho);
    [done | done | lia | lia |].
  by exists o.
Qed.

(** C1 (as amended): the ELF walker compares no offset with the length of
    the buffer.  For a buffer that holds an ELF header of class 1 or 2: when
    the [sh_offset] field of section header entry [e_shstrndx], located from
    [e_shoff], does not lie inside the buffer, the walker reads it outside
    the buffer instead of returning false; and when the first section is
    named [.note.ident] and its note header does not lie inside the buffer,
    the walker reads the name size outside the buffer instead of returning
    false. *)
Theorem elf_walker_reads_unchecked data h :
  Z.of_nat (length data) < 2 ^ 64 →
  read_ehdr data = Done (Some h) →
  (Z.of_nat (length data)
     < strtab_field h + Z.of_nat (word_bytes (e_class h)) →
   ∃ o, Z.of_nat (length data) ≤ o ∧ classify_buffer data = OutOfBounds o)
  ∧ (∀ strtab note,
       elf_strtab data h = Done strtab →
       0 < e_shnum h →
       elf_section_named data h strtab note_ident 0 = Done true →
       elf_section_note data h 0 = Done note →
       Z.of_nat (length data) < note + 4 →
       ∃ o, Z.of_nat (length data) ≤ o
            ∧ classify_buffer data = OutOfBounds o).
Proof.
  intros Hsz Hh. rewrite (classify_buffer_elf _ _ Hh). split.
  - intros Hout.
    destruct (elf_strtab_out _ _ Hsz Hh Hout) as (o & Ho & ->). by exists o.
  - intros strtab note -> Hnum Hnamed Hnote Hout. simpl_outcome.
    unfold has_dgsh_section.
    destruct (Z.to_nat (e_shnum h)) as [|n] eqn:En; [lia |].
    cbn [has_dgsh_section_loop].
    rewrite (has_dgsh_section_body_note_ident _ _ _ _ _ _ Hnamed Hnote).
    destruct (load32_out data note) as (o & Ho & ->); [done | | done |].
    + unfold elf_section_note, section_note in Hnote.
      apply fmap_Done in Hnote as (? & _ & ->). apply ptr_add_range.
    + by exists o.
Qed.

Lemma elf_walker_reads_unchecked_witness :
  (∃ o, 64 ≤ o ∧ classify_buffer Fixture.shoff_beyond_end = OutOfBounds o)
  ∧ (∃ o, 216 ≤ o
          ∧ classify_buffer Fixture.note_beyond_end = OutOfBounds o).
Proof.
  split.
  - refine (proj1 (elf_walker_reads_unchecked Fixture.shoff_beyond_end
                     {| e_class := elf64; e_shoff := 4096; e_shnum := 1;
                        e_shstrndx := 0 |} _ _) _);
      vm_compute; reflexivity.
  - refine (proj2 (elf_walker_reads_unchecked Fixture.note_beyond_end
                     {| e_class := elf64; e_shoff := 64; e_shnum := 2;
                        e_shstrndx := 1 |} _ _) 192 100000 _ _ _ _ _);
      vm_compute; reflexivity.
Defined.

(** C1, counterexample: a 64-byte buffer whose header places the section
    header table at offset 4096.  The walker does not return false: it reads
    the string table header's [sh_offset] at offset 4120, outside the
    buffer, and outside the pages [is_dgsh_program] has mapped for it. *)
Lemma shoff_beyond_end_is_read :
  Z.of_nat (length Fixture.shoff_beyond_end) = 64
  ∧ classify_buffer Fixture.shoff_beyond_end = OutOfBounds 4120
  ∧ fst (is_dgsh_program
           (Fixture.world_of [("a.out"%string, Fixture.shoff_beyond_end)])
           "a.out") = OutOfBounds 4120.
Proof. vm_compute. repeat split. Qed.

Lemma is_dgsh_program_in_bounds w path b r :
  files w !! path = Some b → classify_buffer b = Done r →
  is_dgsh_program w path = (Done r, w).
Proof.
  intros Hfile Hr.
  assert (b ≠ []) as Hb by (by intros ->).
  rewrite (is_dgsh_program_file _ _ _ Hfile Hb). unfold mapped_region.
  by rewrite (stable_dispatch _ _ _ _ Hr).
Qed.

(** C2 (as amended): the walker validates neither the string table index
    nor the string table's extent.  Whenever the [sh_offset] field of header
    entry [e_shstrndx] lies inside the buffer, the walker takes the field's
    value as the string table base, and what the section scan over the
    declared sections returns with that base is the classification of the
    buffer and the result of [is_dgsh_program] on such a file, whether or
    not [e_shstrndx] is below the section count. *)
Theorem strtab_index_unvalidated data h r :
  Z.of_nat (length data) < 2 ^ 64 →
  read_ehdr data = Done (Some h) →
  strtab_field h + Z.of_nat (word_bytes (e_class h))
    ≤ Z.of_nat (length data) →
  has_dgsh_section (e_class h) data (ptr_add 0 (e_shoff h))
    (ptr_add 0 (le_value (bytes_at data (strtab_field h)
                            (word_bytes (e_class h)))))
    (e_shnum h) = Done r →
  classify_buffer data = Done r
  ∧ ∀ w path, files w !! path = Some data →
              is_dgsh_program w path = (Done r, w).
Proof.
  intros Hsz Hh Hin Hscan.
  assert (classify_buffer data = Done r) as Hr.
  { rewrite (classify_buffer_elf _ _ Hh). by rewrite elf_strtab_in. }
  split; [done |]. intros w path Hfile.
  by eapply is_dgsh_program_in_bounds.
Qed.

Lemma strtab_index_unvalidated_witness :
  classify_buffer Fixture.shstrndx_beyond_count = Done 1.
Proof.
  refine (proj1 (strtab_index_unvalidated Fixture.shstrndx_beyond_count
                   {| e_class := elf64; e_shoff := 64; e_shnum := 1;
                      e_shstrndx := 1 |} 1 _ _ _ _));
    vm_compute; first [reflexivity | discriminate].
Defined.

(** C2, counterexample: the header declares one section and names entry 1
    as the string table.  The index is not below the section count, yet the
    walker reads the string table through it and returns true. *)
Lemma shstrndx_beyond_count_accepted :
  read_ehdr Fixture.shstrndx_beyond_count =
    Done (Some {| e_class := elf64; e_shoff := 64; e_shnum := 1;
                  e_shstrndx := 1 |})
  ∧ classify_buffer Fixture.shstrndx_beyond_count = Done 1.
Proof. vm_compute. repeat split. Qed.

(** ** The note of a [.note.ident] section *)

(** The identifier has 15 characters; with its terminator its size is 16. *)
Example sizeof_DGSH_NAME : sizeof_lit DGSH_NAME = 16 ∧ strlen DGSH_NAME = 15.
Proof. vm_compute. split; reflexivity. Qed.

Lemma has_dgsh_section_body_true L data shdr strTab i note n_namesz :
  Z.of_nat (length data) < 2 ^ 64 →
  section_named L data shdr strTab note_ident i = Done true →
  section_note L data shdr i = Done note →
  load32 data note = Done n_namesz →
  has_dgsh_section_body L data shdr strTab i = Done true ↔
  n_namesz = 16 ∧ bytes_at data (ptr_add note nhdr_size) 16 = c_string DGSH_NAME.
Proof.
  intros Hsz Hnamed Hnote Hn.
  rewrite (has_dgsh_section_body_note_ident _ _ _ _ _ _ Hnamed Hnote), Hn.
  simpl_outcome. change (sizeof_lit DGSH_NAME) with 16.
  change (Z.to_nat 16) with 16%nat.
  case_bool_decide as H16; [| naive_solver].
  rewrite bind_Done. split.
  - intros (r & Hr & [= Hr0%bool_decide_eq_true]). subst r.
    apply memcmp_equal, load_bytes_Done in Hr as [_ Hr];
      [| lia | apply ptr_add_range | done].
    split; [done |]. by rewrite <- Hr.
  - intros [_ Hname]. exists 0. split; [| done].
    apply memcmp_equal, load_bytes_Done;
      [lia | apply ptr_add_range | done |].
    assert (length (bytes_at data (ptr_add note nhdr_size) 16) = 16%nat)
      as Hlen by by rewrite Hname.
    unfold bytes_at in Hlen. rewrite length_take, length_drop in Hlen.
    pose proof (ptr_add_range note nhdr_size). split; [lia |].
    by rewrite Hname.
Qed.

(** C4 (as amended): in an ELF buffer that the walker scans without leaving
    the buffer, let section [i] be named [.note.ident] and let [n_namesz] be
    the name size of the note record at its start.  If [n_namesz] is 16
    (the identifier [DSpinellis/dgsh] with its terminator) and the 16 bytes
    after the note header are that identifier, the buffer is classified as
    compatible.  If the size differs or a name byte differs, and no other
    section is named [.note.ident], it is classified as not compatible. *)
Theorem note_ident_name_decides data h strtab i note n_namesz :
  Z.of_nat (length data) < 2 ^ 64 →
  read_ehdr data = Done (Some h) →
  elf_strtab data h = Done strtab →
  0 ≤ i < e_shnum h →
  elf_section_named data h strtab note_ident i = Done true →
  elf_section_note data h i = Done note →
  load32 data note = Done n_namesz →
  is_done (classify_buffer data) = true →
  (n_namesz = 16
   ∧ bytes_at data (ptr_add note nhdr_size) 16 = c_string DGSH_NAME →
   classify_buffer data = Done 1)
  ∧ (n_namesz ≠ 16
     ∨ bytes_at data (ptr_add note nhdr_size) 16 ≠ c_string DGSH_NAME →
     Forall (λ j, j = i
                  ∨ elf_section_named data h strtab note_ident j = Done false)
       (seqZ 0 (e_shnum h)) →
     classify_buffer data = Done 0).
Proof.
  intros Hsz Hh Hstrtab Hi Hnamed Hnote Hn.
  rewrite (classify_buffer_elf _ _ Hh), Hstrtab. simpl_outcome. intros Hdone.
  pose proof (has_dgsh_section_body_true _ _ _ _ _ _ _ Hsz Hnamed Hnote Hn)
    as Hbody.
  split.
  - intros Hmatch%Hbody. by eapply has_dgsh_section_hit.
  - intros Hdiff Hothers. apply has_dgsh_section_miss. intros j Hj.
    unfold has_dgsh_section in Hdone.
    destruct (has_dgsh_section_loop _ _ _ _ _ _) as [[r k]|] eqn:E; [| done].
    apply has_dgsh_section_loop_Done in E
      as [(_ & Hk & Hhit & _) | (_ & _ & Hall)]; [| apply Hall; lia].
    exfalso. rewrite Forall_forall in Hothers.
    destruct (Hothers k) as [-> | Hk'].
    + apply elem_of_seqZ. lia.
    + apply Hbody in Hhit. naive_solver.
    + apply has_dgsh_section_body_other_name in Hk'. congruence.
Qed.

Lemma note_ident_name_decides_witness :
  classify_buffer (Fixture.elf64_with_note 2 1 Fixture.dgsh_note) = Done 1
  ∧ classify_buffer
      (Fixture.elf32_with_note (Fixture.note 4 (c_string "GNU"))) = Done 0.
Proof.
  split.
  - refine (proj1 (note_ident_name_decides
                     (Fixture.elf64_with_note 2 1 Fixture.dgsh_note)
                     {| e_class := elf64; e_shoff := 64; e_shnum := 2;
                        e_shstrndx := 1 |} 192 0 216 16 _ _ _ _ _ _ _ _) _);
      try (vm_compute; reflexivity); [cbn; lia |].
    vm_compute. split; reflexivity.
  - refine (proj2 (note_ident_name_decides
                     (Fixture.elf32_with_note
                        (Fixture.note 4 (c_string "GNU")))
                     {| e_class := elf32; e_shoff := 52; e_shnum := 2;
                        e_shstrndx := 1 |} 132 0 156 4 _ _ _ _ _ _ _ _)
              _ _);
      [vm_compute; reflexivity | vm_compute; reflexivity
      | vm_compute; reflexivity | cbn; lia | vm_compute; reflexivity
      | vm_compute; reflexivity | vm_compute; reflexivity
      | vm_compute; reflexivity | | ].
    + left. vm_compute. discriminate.
    + apply (bool_decide_unpack _). vm_compute. exact I.
Defined.

(** C4, counterexample: a note whose name size field is 17 and whose name
    bytes are the identifier (with its terminator and one more byte) is not
    classified as compatible. *)
Lemma note_ident_namesz_17 :
  load32 (Fixture.elf64_with_note 2 1
            (Fixture.note 17 (c_string DGSH_NAME ++ [0]))) 216 = Done 17
  ∧ bytes_at (Fixture.elf64_with_note 2 1
                (Fixture.note 17 (c_string DGSH_NAME ++ [0]))) 228 16
    = c_string DGSH_NAME
  ∧ classify_buffer (Fixture.elf64_with_note 2 1
                       (Fixture.note 17 (c_string DGSH_NAME ++ [0])))
    = Done 0.
Proof. vm_compute. repeat split. Qed.

(** * Further properties *)

(** ** The first-line search, exactly *)

Lemma bytes_at_take data w off n :
  0 ≤ off → (Z.to_nat off + n ≤ w)%nat →
  bytes_at (take w data) off n = bytes_at data off n.
Proof.
  intros Hoff Hle. unfold bytes_at.
  rewrite !take_drop_commute, take_take. do 2 f_equal. lia.
Qed.

Section linenstr_exact.
Context (data needle : list Z).

Local Abbreviation nlen := (Z.of_nat (length needle)).

(** What was read before a position is returned: no line feed up to it,
    no occurrence before it. *)
Lemma linenstr_loop_Some_before hlen : ∀ haystack q,
  0 ≤ haystack → haystack + Z.of_nat hlen < 2 ^ 64 →
  linenstr_loop data needle haystack hlen = Done (Some q) →
  (∀ j, haystack ≤ j ≤ q → ∃ c, load8 data j = Done c ∧ c ≠ newline)
  ∧ (∀ j, haystack ≤ j < q →
          ∃ r, memcmp data j needle (length needle) = Done r ∧ r ≠ 0).
Proof.
  induction hlen as [|hlen IH]; intros p q Hp Hsz; [done |].
  cbn [linenstr_loop]. case_bool_decide as Hn; [| done].
  intros (c & Hc & H)%bind_Done. case_bool_decide as Hnl; [| done].
  apply bind_Done in H as (r & Hr & H). case_bool_decide as Hr0.
  - injection H as <-. split.
    + intros j ?. replace j with p by lia. eauto.
    + intros j ?. lia.
  - rewrite ptr_add_small in H by lia.
    pose proof (linenstr_loop_Some data needle hlen (p + 1) q
                  ltac:(lia) ltac:(lia) H) as (? & _).
    apply IH in H as [Hnls Hnos]; [| lia..]. split.
    + intros j ?. destruct (decide (j = p)) as [-> | ?]; [eauto |].
      apply Hnls. lia.
    + intros j ?. destruct (decide (j = p)) as [-> | ?]; [eauto |].
      apply Hnos. lia.
Qed.

(** An occurrence on the first line, with a byte of the count after it, is
    found unless an earlier one is. *)
Lemma linenstr_loop_finds hlen : ∀ haystack q,
  0 ≤ haystack ≤ q →
  haystack + Z.of_nat hlen ≤ Z.of_nat (length data) →
  Z.of_nat (length data) < 2 ^ 64 →
  q + nlen < haystack + Z.of_nat hlen →
  bytes_at data q (length needle) = needle →
  (∀ j c, haystack ≤ j ≤ q → data !! Z.to_nat j = Some c → c ≠ newline) →
  ∃ q', haystack ≤ q' ≤ q
        ∧ linenstr_loop data needle haystack hlen = Done (Some q').
Proof.
  induction hlen as [|hlen IH]; intros p q Hp Hin Hsz Hroom Hocc Hnl; [lia |].
  cbn [linenstr_loop]. rewrite bool_decide_eq_true_2 by lia.
  destruct (load8_in data p) as [c Hc]; [lia |]. rewrite Hc. simpl_outcome.
  apply load8_Done in Hc as [_ Hc].
  rewrite bool_decide_eq_true_2 by (eapply (Hnl p); [lia | done]).
  rewrite memcmp_in by lia. simpl_outcome. rewrite firstn_all.
  destruct (bool_decide (bytes_at data p (length needle) = needle))
    eqn:Hhere.
  - rewrite bool_decide_eq_true_2 by done. exists p. split; [lia | done].
  - rewrite bool_decide_eq_false_2 by done.
    apply bool_decide_eq_false in Hhere.
    assert (p ≠ q) by (intros ->; done).
    rewrite ptr_add_small by lia.
    destruct (IH (p + 1) q) as (q' & ? & ->); try done; try lia.
    + intros j c' ?. apply Hnl. lia.
    + exists q'. split; [lia | done].
Qed.
End linenstr_exact.

Lemma token_at_intro data needle hlen q :
  0 ≤ hlen ≤ Z.of_nat (length data) → Z.of_nat (length data) < 2 ^ 64 →
  linenstr_loop data needle 0 (Z.to_nat hlen) = Done (Some q) →
  token_at (take (Z.to_nat hlen) data) needle q.
Proof.
  intros Hlen Hsz H.
  pose proof (linenstr_loop_Some data needle (Z.to_nat hlen) 0 q
                ltac:(lia) ltac:(lia) H) as (Hq & Hroom & Hocc).
  pose proof (linenstr_loop_Some_before data needle (Z.to_nat hlen) 0 q
                ltac:(lia) ltac:(lia) H) as [Hnl _].
  rewrite memcmp_in in Hocc by lia. rewrite firstn_all in Hocc.
  case_bool_decide as Hbytes; [| done].
  unfold token_at. rewrite length_take.
  split; [done |]. split; [lia |]. split.
  - rewrite bytes_at_take by lia. done.
  - rewrite take_take. apply Forall_lookup. intros i x Hix.
    pose proof (lookup_lt_Some _ _ _ Hix) as Hi. rewrite length_take in Hi.
    rewrite lookup_take_lt in Hix by lia.
    destruct (Hnl (Z.of_nat i)) as (c & Hc & Hcn); [lia |].
    apply load8_Done in Hc as [_ Hc]. rewrite Nat2Z.id in Hc. congruence.
Qed.

Lemma token_at_elim data needle hlen q :
  0 ≤ hlen ≤ Z.of_nat (length data) →
  token_at (take (Z.to_nat hlen) data) needle q →
  0 ≤ q ∧ q + Z.of_nat (length needle) < hlen
  ∧ bytes_at data q (length needle) = needle
  ∧ ∀ j c, 0 ≤ j ≤ q → data !! Z.to_nat j = Some c → c ≠ newline.
Proof.
  intros Hlen (Hq & Hroom & Hocc & Hnl). rewrite length_take in Hroom.
  split; [done |]. split; [lia |]. split.
  - by rewrite bytes_at_take in Hocc by lia.
  - intros j c Hj Hc. rewrite Forall_lookup in Hnl.
    apply (Hnl (Z.to_nat j)). rewrite take_take.
    by rewrite lookup_take_lt by lia.
Qed.

Lemma linenstr_found data token hlen :
  0 ≤ hlen ≤ Z.of_nat (length data) → Z.of_nat (length data) < 2 ^ 64 →
  ∃ r, linenstr data token hlen = Done r
       ∧ (found r = true
          ↔ token_on_first_line (take (Z.to_nat hlen) data) token).
Proof.
  intros Hlen Hsz. destruct (linenstr_in data token hlen Hlen Hsz) as [r Hr].
  exists r. split; [done |]. unfold found, token_on_first_line.
  rewrite bool_decide_eq_true. split.
  - destruct r as [q|]; [intros _ | done]. exists q.
    by apply token_at_intro.
  - intros (q & Hq). apply token_at_elim in Hq as (? & ? & ? & ?); [| done].
    destruct (linenstr_loop_finds data (chars token) (Z.to_nat hlen) 0 q)
      as (q' & _ & Hq'); try done; try lia.
    unfold linenstr in Hr. congruence.
Qed.

(** X1: [linenstr] returns the first offset at which the token occurs on the
    first line with a byte of the count left after it, and the null pointer
    exactly when there is no such occurrence. *)
Theorem linenstr_first_occurrence data token hlen :
  0 ≤ hlen ≤ Z.of_nat (length data) → Z.of_nat (length data) < 2 ^ 64 →
  (∀ q, linenstr data token hlen = Done (Some q)
        ↔ token_at (take (Z.to_nat hlen) data) (chars token) q
          ∧ ∀ j, 0 ≤ j < q →
                 bytes_at data j (length (chars token)) ≠ chars token)
  ∧ (linenstr data token hlen = Done None
     ↔ ¬ token_on_first_line (take (Z.to_nat hlen) data) token).
Proof.
  intros Hlen Hsz. split.
  - intros q. unfold linenstr. split.
    + intros H. split; [by apply token_at_intro |].
      intros j Hj.
      pose proof (linenstr_loop_Some data (chars token) (Z.to_nat hlen) 0 q
                    ltac:(lia) ltac:(lia) H) as (_ & Hroom & _).
      pose proof (linenstr_loop_Some_before data (chars token)
                    (Z.to_nat hlen) 0 q ltac:(lia) ltac:(lia) H)
        as [_ Hno].
      destruct (Hno j) as (r & Hr & Hr0); [lia |].
      rewrite memcmp_in in Hr by lia. rewrite firstn_all in Hr.
      case_bool_decide; [by injection Hr as <- | done].
    + intros [Hat Hfirst].
      apply token_at_elim in Hat as (? & ? & ? & ?); [| done].
      destruct (linenstr_loop_finds data (chars token) (Z.to_nat hlen) 0 q)
        as (q' & Hq' & Hres); try done; try lia.
      destruct (decide (q' = q)) as [-> | Hne]; [done |].
      apply token_at_intro, token_at_elim in Hres as (? & ? & Hocc & _);
        try done.
      destruct (Hfirst q'); [lia | done].
  - destruct (linenstr_found data token hlen Hlen Hsz) as (r & -> & Hr).
    split.
    + intros [= ->] Hocc%Hr. done.
    + intros Hno. destruct r as [q|]; [| done].
      destruct Hno. by apply Hr.
Qed.

Lemma linenstr_first_occurrence_witness :
  linenstr Fixture.token_at_end "/bin" 16 = Done (Some 2).
Proof.
  refine (proj2 (proj1 (linenstr_first_occurrence Fixture.token_at_end
                          "/bin" 16 _ _) 2) _).
  - vm_compute. split; discriminate.
  - vm_compute. reflexivity.
  - split.
    + apply (bool_decide_unpack _). vm_compute. exact I.
    + intros j Hj. assert (j = 0 ∨ j = 1) as [-> | ->] by lia;
        vm_compute; discriminate.
Defined.

(** ** The script scanner and its description *)

Lemma is_magic_script_dgsh_program_spec data w :
  0 ≤ w ≤ Z.of_nat (length data) → Z.of_nat (length data) < 2 ^ 64 →
  ∃ d, is_magic_script_dgsh_program data w = Done d
       ∧ ((d = 1 ∧ magic_on_second_line (take (Z.to_nat w) data))
          ∨ (d = 0 ∧ ¬ magic_on_second_line (take (Z.to_nat w) data))).
Proof.
  intros Hw Hsz. rewrite is_magic_script_dgsh_program_in by done.
  eexists. split; [done |]. unfold magic_on_second_line.
  rewrite length_take.
  destruct (first_newline _) as [p|] eqn:Hp.
  - pose proof (first_newline_Some _ _ Hp) as [Hp' _].
    rewrite length_take in Hp'.
    case_bool_decide as Hroom.
    { right. split; [done |]. intros (p' & [= <-] & ? & _). lia. }
    assert (bytes_at (take (Z.to_nat w) data) (p + 1) 6
            = bytes_at data (p + 1) 6) as Hbytes
      by (apply bytes_at_take; lia).
    case_bool_decide as Hmagic.
    + left. split; [done |]. exists p. rewrite Hbytes.
      repeat split; [lia | done].
    + right. split; [done |]. intros (p' & [= <-] & _ & H).
      by rewrite Hbytes in H.
  - right. split; [done |]. by intros (p' & ? & _).
Qed.

Lemma is_script_dgsh_program_spec data len :
  0 ≤ len ≤ Z.of_nat (length data) → Z.of_nat (length data) < 2 ^ 64 →
  ∃ r, is_script_dgsh_program data len = Done r
       ∧ ((r = 1
           ∧ script_marker_present
               (take (Z.to_nat (Z.min len MAX_LINE_LEN)) data))
          ∨ (r = 0
             ∧ ¬ script_marker_present
                   (take (Z.to_nat (Z.min len MAX_LINE_LEN)) data))).
Proof.
  intros Hlen Hsz.
  assert (0 ≤ Z.min len MAX_LINE_LEN ≤ Z.of_nat (length data)) as Hw
    by (unfold MAX_LINE_LEN; lia).
  unfold is_script_dgsh_program, script_marker_present. rewrite window_min.
  destruct (linenstr_found data "dgsh-wrap" _ Hw Hsz) as (a & -> & Ha).
  simpl_outcome. destruct (found a).
  { eexists. split; [done |]. left. split; [done |]. left. by apply Ha. }
  destruct (linenstr_found data "--dgsh" _ Hw Hsz) as (b & -> & Hb).
  simpl_outcome. destruct (found b).
  { eexists. split; [done |]. left. split; [done |]. right. left.
    by apply Hb. }
  destruct (linenstr_found data "env dgsh" _ Hw Hsz) as (c & -> & Hc).
  simpl_outcome. destruct (found c).
  { eexists. split; [done |]. left. split; [done |]. do 2 right. left.
    by apply Hc. }
  destruct (is_magic_script_dgsh_program_spec data _ Hw Hsz)
    as (d & -> & [[-> Hd] | [-> Hd]]); simpl_outcome.
  - eexists. split; [done |]. left. split; [done |]. by do 3 right.
  - eexists. split; [done |]. right. split; [done |].
    intros [H | [H | [H | H]]]; [| | | done].
    + by apply Ha in H.
    + by apply Hb in H.
    + by apply Hc in H.
Qed.

(** X2: the script scanner returns 1 exactly when, within the window of the
    first [min(len, 1024)] bytes, one of [dgsh-wrap], [--dgsh], [env dgsh]
    occurs on the first line with a byte of the window after it, or the
    first line feed is followed by at least seven bytes of the window that
    begin with [#!dgsh]; otherwise it returns 0. *)
Theorem script_scanner_meets_description data len :
  0 ≤ len ≤ Z.of_nat (length data) → Z.of_nat (length data) < 2 ^ 64 →
  (is_script_dgsh_program data len = Done 1
   ↔ script_marker_present (take (Z.to_nat (Z.min len MAX_LINE_LEN)) data))
  ∧ (is_script_dgsh_program data len = Done 0
     ↔ ¬ script_marker_present
           (take (Z.to_nat (Z.min len MAX_LINE_LEN)) data)).
Proof.
  intros Hlen Hsz.
  destruct (is_script_dgsh_program_spec data len Hlen Hsz)
    as (r & -> & [[-> H] | [-> H]]); split; split; done.
Qed.

Lemma script_scanner_meets_description_witness :
  is_script_dgsh_program Fixture.magic_on_second_line 23 = Done 1.
Proof.
  refine (proj2 (proj1 (script_scanner_meets_description
                          Fixture.magic_on_second_line 23 _ _)) _).
  - vm_compute. split; discriminate.
  - vm_compute. reflexivity.
  - do 3 right. exists 9. vm_compute. repeat split; discriminate.
Defined.

(** X3: the second-line check returns 1 exactly when the range it is given
    contains a line feed, at least seven bytes of the range follow the first
    one and the first six of them are [#!dgsh]; otherwise it returns 0.
    Six bytes after the line feed are not enough. *)
Theorem second_line_check_exact data len :
  0 ≤ len ≤ Z.of_nat (length data) → Z.of_nat (length data) < 2 ^ 64 →
  (is_magic_script_dgsh_program data len = Done 1
   ↔ magic_on_second_line (take (Z.to_nat len) data))
  ∧ (is_magic_script_dgsh_program data len = Done 0
     ↔ ¬ magic_on_second_line (take (Z.to_nat len) data)).
Proof.
  intros Hlen Hsz.
  destruct (is_magic_script_dgsh_program_spec data len Hlen Hsz)
    as (r & -> & [[-> H] | [-> H]]); split; split; done.
Qed.

Lemma second_line_check_exact_witness :
  ¬ magic_on_second_line (take (Z.to_nat 16) Fixture.magic_at_end).
Proof.
  refine (proj1 (proj2 (second_line_check_exact Fixture.magic_at_end 16
                          _ _)) _).
  - vm_compute. split; discriminate.
  - vm_compute. reflexivity.
  - vm_compute. reflexivity.
Defined.

(** X4: the script scanner's result depends only on the window: two buffers
    with the same first [min(len, 1024)] bytes get the same result, whatever
    follows the window. *)
Theorem script_result_depends_on_window data data' len len' :
  0 ≤ len ≤ Z.of_nat (length data) → Z.of_nat (length data) < 2 ^ 64 →
  0 ≤ len' ≤ Z.of_nat (length data') → Z.of_nat (length data') < 2 ^ 64 →
  take (Z.to_nat (Z.min len MAX_LINE_LEN)) data
  = take (Z.to_nat (Z.min len' MAX_LINE_LEN)) data' →
  is_script_dgsh_program data len = is_script_dgsh_program data' len'.
Proof.
  intros Hlen Hsz Hlen' Hsz' Hwin.
  destruct (is_script_dgsh_program_spec data len Hlen Hsz)
    as (r & -> & Hr).
  destruct (is_script_dgsh_program_spec data' len' Hlen' Hsz')
    as (r' & -> & Hr').
  rewrite Hwin in Hr. f_equal.
  destruct Hr as [[-> ?] | [-> ?]], Hr' as [[-> ?] | [-> ?]]; done.
Qed.

Lemma script_result_depends_on_window_witness :
  is_script_dgsh_program Fixture.long_first_line 1032
  = is_script_dgsh_program (take 1024 Fixture.long_first_line) 1024.
Proof.
  refine (script_result_depends_on_window Fixture.long_first_line
            (take 1024 Fixture.long_first_line) 1032 1024 _ _ _ _ _).
  - vm_compute. split; discriminate.
  - vm_compute. reflexivity.
  - vm_compute. split; discriminate.
  - vm_compute. reflexivity.
  - vm_compute. reflexivity.
Defined.

(** X5: a buffer that begins with [#!] is classified without any read
    outside the buffer: the result is 0 or 1, and it is 1 exactly when a
    marker is present in the window. *)
Theorem shebang_buffer_is_classified_in_bounds buffer :
  Z.of_nat (length buffer) < 2 ^ 64 → take 2 buffer = chars "#!" →
  ∃ r, classify_buffer buffer = Done r
       ∧ (r = 0 ∨ r = 1)
       ∧ (r = 1
          ↔ script_marker_present
              (take (Z.to_nat (Z.min (Z.of_nat (length buffer))
                                 MAX_LINE_LEN)) buffer)).
Proof.
  intros Hsz Hsh.
  assert (2 ≤ length buffer)%nat as Hlen.
  { assert (length (take 2 buffer) = 2%nat) as H by by rewrite Hsh.
    rewrite length_take in H. lia. }
  unfold classify_buffer, dispatch. rewrite memcmp_in by lia.
  unfold bytes_at. rewrite drop_0, Hsh.
  rewrite (bool_decide_eq_true_2 (_ = take 2 _)) by done.
  simpl_outcome. rewrite bool_decide_eq_true_2 by done.
  destruct (is_script_dgsh_program_spec buffer (Z.of_nat (length buffer)))
    as (r & -> & [[-> H] | [-> H]]); [lia | done | |].
  - exists 1. split; [done |]. split; [auto |]. done.
  - exists 0. split; [done |]. split; [auto |]. split; [done | by intros ?%H].
Qed.

Lemma shebang_buffer_is_classified_in_bounds_witness :
  ∃ r, classify_buffer Fixture.token_at_end = Done r
       ∧ (r = 0 ∨ r = 1)
       ∧ (r = 1
          ↔ script_marker_present
              (take (Z.to_nat (Z.min (Z.of_nat (length Fixture.token_at_end))
                                 MAX_LINE_LEN)) Fixture.token_at_end)).
Proof.
  refine (shebang_buffer_is_classified_in_bounds Fixture.token_at_end _ _);
    vm_compute; reflexivity.
Defined.

(** ** The section scan, exactly *)

Lemma has_dgsh_section_loop_first_hit L data shdr strTab n : ∀ i k,
  i ≤ k < i + Z.of_nat n →
  has_dgsh_section_body L data shdr strTab k = Done true →
  (∀ j, i ≤ j < k → has_dgsh_section_body L data shdr strTab j = Done false) →
  has_dgsh_section_loop L data shdr strTab i n = Done (1, k).
Proof.
  induction n as [|n IH]; intros i k Hk Hhit Hbefore; [lia |].
  cbn [has_dgsh_section_loop].
  destruct (decide (k = i)) as [-> | Hne].
  - by rewrite Hhit.
  - rewrite Hbefore by lia. simpl_outcome. apply IH; [lia | done |].
    intros j ?. apply Hbefore. lia.
Qed.

(** X6: an ELF buffer none of whose declared sections is named
    [.note.ident] is classified as not compatible; the notes are not looked
    at.  This includes a section count of zero. *)
Theorem no_note_ident_section_is_not_compatible data h strtab :
  read_ehdr data = Done (Some h) →
  elf_strtab data h = Done strtab →
  Forall (λ j, elf_section_named data h strtab note_ident j = Done false)
    (seqZ 0 (e_shnum h)) →
  classify_buffer data = Done 0.
Proof.
  intros Hh Hstrtab Hnone.
  rewrite (classify_buffer_elf _ _ Hh), Hstrtab. simpl_outcome.
  apply has_dgsh_section_miss. intros j Hj.
  apply has_dgsh_section_body_other_name.
  rewrite Forall_forall in Hnone. apply Hnone, elem_of_seqZ. lia.
Qed.

Lemma no_note_ident_section_is_not_compatible_witness :
  classify_buffer Fixture.no_note_section = Done 0.
Proof.
  refine (no_note_ident_section_is_not_compatible Fixture.no_note_section
            {| e_class := elf64; e_shoff := 64; e_shnum := 2;
               e_shstrndx := 1 |} 192 _ _ _).
  - vm_compute. reflexivity.
  - vm_compute. reflexivity.
  - apply (bool_decide_unpack _). vm_compute. exact I.
Defined.

(** X7: an ELF buffer is classified as compatible exactly when some
    declared section makes the loop body return 1 and every section before
    it is passed over without a read outside the buffer.  Sections after the
    first match are not read. *)
Theorem elf_compatible_iff_first_match data h strtab :
  read_ehdr data = Done (Some h) →
  elf_strtab data h = Done strtab →
  classify_buffer data = Done 1
  ↔ ∃ k, 0 ≤ k < e_shnum h
         ∧ elf_section_matches data h strtab k = Done true
         ∧ ∀ j, 0 ≤ j < k →
                elf_section_matches data h strtab j = Done false.
Proof.
  intros Hh Hstrtab.
  rewrite (classify_buffer_elf _ _ Hh), Hstrtab. simpl_outcome.
  unfold has_dgsh_section, elf_section_matches. split.
  - intros ([r k] & Hloop & [= Hr])%fmap_Done. simpl in Hr. subst r.
    apply has_dgsh_section_loop_Done in Hloop
      as [(_ & Hk & Hhit & Hbefore) | (? & _)]; [| done].
    exists k. split; [lia | done].
  - intros (k & Hk & Hhit & Hbefore).
    rewrite (has_dgsh_section_loop_first_hit _ _ _ _ _ 0 k); [done | lia | done |].
    intros j ?. apply Hbefore. lia.
Qed.

Lemma elf_compatible_iff_first_match_witness :
  classify_buffer (Fixture.elf64_with_note 2 1 Fixture.dgsh_note) = Done 1.
Proof.
  refine (proj2 (elf_compatible_iff_first_match
                   (Fixture.elf64_with_note 2 1 Fixture.dgsh_note)
                   {| e_class := elf64; e_shoff := 64; e_shnum := 2;
                      e_shstrndx := 1 |} 192 _ _) _).
  - vm_compute. reflexivity.
  - vm_compute. reflexivity.
  - exists 0. split; [cbn; lia |]. split; [vm_compute; reflexivity |].
    intros j ?. lia.
Defined.

Lemma memcmp_magic data :
  take 4 data = ELFMAG → memcmp data 0 ELFMAG SELFMAG = Done 0.
Proof.
  intros Hmagic. rewrite <- (take_drop 4 data). apply stable_memcmp.
  assert (length (take 4 data) = 4%nat) as Hlen by by rewrite Hmagic.
  rewrite memcmp_in by (rewrite ?Hlen; unfold SELFMAG; lia).
  unfold bytes_at, SELFMAG. rewrite drop_0, take_take.
  change (4 `min` 4)%nat with 4%nat. by rewrite Hmagic.
Qed.

(** X8: bytes appended to an ELF buffer do not change its classification,
    when that classification was reached without a read outside the
    buffer: the walker never uses the length. *)
Theorem appended_bytes_keep_elf_result data ext r :
  take 4 data = ELFMAG →
  classify_buffer data = Done r →
  classify_buffer (data ++ ext) = Done r.
Proof.
  intros Hmagic. unfold classify_buffer.
  rewrite !dispatch_elf.
  - apply stable_is_elf_dgsh_program.
  - apply memcmp_app. by apply memcmp_magic.
  - by apply memcmp_magic.
Qed.

Lemma appended_bytes_keep_elf_result_witness :
  classify_buffer (Fixture.elf64_with_note 2 1 Fixture.dgsh_note ++ [1; 2; 3])
  = Done 1.
Proof.
  refine (appended_bytes_keep_elf_result _ [1; 2; 3] 1 _ _);
    vm_compute; reflexivity.
Defined.

Lemma strcmp_equal lit : ∀ data off,
  0 ≤ off → Z.of_nat (length data) < 2 ^ 64 →
  strcmp data off lit = Done 0
  ↔ bytes_at data off (S (length lit)) = lit ++ [0].
Proof.
  induction lit as [|x lit IH]; intros data off Hoff Hsz; cbn [strcmp].
  - destruct (load8 data off) as [b|o] eqn:Hb; simpl_outcome.
    + apply load8_Done in Hb as [_ Hb].
      rewrite (bytes_at_cons _ _ _ _ Hoff Hb). unfold bytes_at.
      rewrite take_0. cbn [app].
      case_bool_decide as Hb0; [by subst b |].
      split; [done | by intros [= ?]].
    + apply load8_OutOfBounds in Hb as [_ Hb]. unfold bytes_at.
      rewrite drop_ge by lia. done.
  - destruct (load8 data off) as [b|o] eqn:Hb; simpl_outcome.
    + apply load8_Done in Hb as [_ Hb].
      pose proof (lookup_lt_Some _ _ _ Hb).
      rewrite (bytes_at_cons _ _ _ _ Hoff Hb).
      change (length (x :: lit)) with (S (length lit)).
      change ((x :: lit) ++ [0]) with (x :: (lit ++ [0])).
      case_bool_decide as Hbx.
      * subst b. rewrite ptr_add_small by lia. rewrite IH by lia.
        split; [by intros -> | by intros [= ->]].
      * split; [done | by intros [= ? _]].
    + apply load8_OutOfBounds in Hb as [_ Hb]. unfold bytes_at.
      rewrite drop_ge by lia. done.
Qed.

Lemma strcmp_in lit : ∀ data off,
  0 ≤ off →
  off + Z.of_nat (S (length lit)) ≤ Z.of_nat (length data) →
  Z.of_nat (length data) < 2 ^ 64 →
  ∃ c, strcmp data off lit = Done c.
Proof.
  induction lit as [|x lit IH]; intros data off Hoff Hin Hsz; cbn [strcmp];
    (destruct (load8_in data off) as [b ->]; [cbn [length] in Hin; lia |]);
    simpl_outcome.
  - by eexists.
  - case_bool_decide; [| by eexists].
    rewrite ptr_add_small by (cbn [length] in Hin; lia).
    apply IH; [lia | cbn [length] in Hin; lia | done].
Qed.

(** X9: a section is taken for [.note.ident] exactly when the twelve bytes
    at its name offset in the string table are [.note.ident] and the
    terminating zero.  When twelve bytes lie in the buffer at that offset
    and are anything else, for instance a longer name that begins with
    [.note.ident], the test is false. *)
Theorem note_ident_name_is_exact data h strtab i sh_name :
  Z.of_nat (length data) < 2 ^ 64 →
  elf_section_sh_name data h i = Done sh_name →
  (elf_section_named data h strtab note_ident i = Done true
   ↔ bytes_at data (ptr_add strtab sh_name) 12 = c_string note_ident)
  ∧ (ptr_add strtab sh_name + 12 ≤ Z.of_nat (length data) →
     bytes_at data (ptr_add strtab sh_name) 12 ≠ c_string note_ident →
     elf_section_named data h strtab note_ident i = Done false).
Proof.
  intros Hsz Hname.
  unfold elf_section_named, section_named.
  unfold elf_section_sh_name in Hname. rewrite Hname. simpl_outcome.
  pose proof (strcmp_equal (chars note_ident) data (ptr_add strtab sh_name)
                ltac:(apply ptr_add_range) Hsz) as Heq.
  change (S (length (chars note_ident))) with 12%nat in Heq.
  change (chars note_ident ++ [0]) with (c_string note_ident) in Heq.
  split.
  - rewrite <- Heq.
    destruct (strcmp _ _ _) as [c|o]; simpl_outcome; [| done].
    case_bool_decide; naive_solver.
  - intros Hin Hne.
    destruct (strcmp_in (chars note_ident) data (ptr_add strtab sh_name))
      as [c Hc]; [apply ptr_add_range | | done |].
    { change (Z.of_nat (S (length (chars note_ident)))) with 12. lia. }
    rewrite Hc. simpl_outcome. f_equal. apply bool_decide_eq_false_2.
    intros ->. by apply Hne, Heq.
Qed.

Lemma note_ident_name_is_exact_witness :
  elf_section_named (Fixture.elf64_with_note 2 1 Fixture.dgsh_note)
    {| e_class := elf64; e_shoff := 64; e_shnum := 2; e_shstrndx := 1 |}
    192 note_ident 0 = Done true
  ∧ elf_section_named (Fixture.elf64_with_note 2 1 Fixture.dgsh_note)
      {| e_class := elf64; e_shoff := 64; e_shnum := 2; e_shstrndx := 1 |}
      192 note_ident 1 = Done false.
Proof.
  split.
  - refine (proj2 (proj1 (note_ident_name_is_exact
                            (Fixture.elf64_with_note 2 1 Fixture.dgsh_note)
                            {| e_class := elf64; e_shoff := 64; e_shnum := 2;
                               e_shstrndx := 1 |} 192 0 1 _ _)) _);
      vm_compute; reflexivity.
  - refine (proj2 (note_ident_name_is_exact
                     (Fixture.elf64_with_note 2 1 Fixture.dgsh_note)
                     {| e_class := elf64; e_shoff := 64; e_shnum := 2;
                        e_shstrndx := 1 |} 192 1 13 _ _) _ _);
      vm_compute; first [reflexivity | discriminate].
Defined.

(** X10: an ELF buffer that ends before the end of its header's [e_shoff]
    field is not rejected: the walker reads the field past the end of the
    buffer. *)
Theorem truncated_elf_header_is_read_past_end data arch L :
  Z.of_nat (length data) < 2 ^ 64 →
  take 4 data = ELFMAG →
  data !! 4%nat = Some arch →
  layout_of_class arch = Some L →
  Z.of_nat (length data) < e_shoff_at L + Z.of_nat (word_bytes L) →
  ∃ o, Z.of_nat (length data) ≤ o ∧ classify_buffer data = OutOfBounds o.
Proof.
  intros Hsz Hmagic Harch HL Hshort. unfold classify_buffer.
  rewrite dispatch_elf by by apply memcmp_magic.
  unfold is_elf_dgsh_program. rewrite memcmp_magic by done. simpl_outcome.
  rewrite bool_decide_eq_false_2 by (by intros []).
  assert (load8 data EI_CLASS = Done arch) as -> by by apply load8_Done.
  simpl_outcome. unfold layout_of_class in HL.
  repeat case_bool_decide; try done; injection HL as <-.
  - destruct (load_bytes_out 4 data 32) as (o & Ho & ?);
      [lia | done | lia | simpl in Hshort; lia |].
    unfold load32. rewrite Ho. by exists o.
  - destruct (load_bytes_out 8 data 40) as (o & Ho & ?);
      [lia | done | lia | simpl in Hshort; lia |].
    unfold load64. rewrite Ho. by exists o.
Qed.

Lemma truncated_elf_header_is_read_past_end_witness :
  ∃ o, 8 ≤ o ∧ classify_buffer Fixture.only_e_ident = OutOfBounds o.
Proof.
  refine (truncated_elf_header_is_read_past_end Fixture.only_e_ident 2 elf64
            _ _ _ _ _);
    vm_compute; reflexivity.
Defined.

(** X15: in a section named [.note.ident] whose note has a name size
    other than 16, the name bytes are not read: the section is passed over,
    also when those bytes would lie outside the buffer. *)
Theorem other_name_size_is_passed_over data h strtab i note n_namesz :
  elf_section_named data h strtab note_ident i = Done true →
  elf_section_note data h i = Done note →
  load32 data note = Done n_namesz →
  n_namesz ≠ 16 →
  elf_section_matches data h strtab i = Done false.
Proof.
  intros Hnamed Hnote Hn Hne. unfold elf_section_matches.
  rewrite (has_dgsh_section_body_note_ident _ _ _ _ _ _ Hnamed Hnote), Hn.
  simpl_outcome. change (sizeof_lit DGSH_NAME) with 16.
  by rewrite bool_decide_eq_false_2.
Qed.

Lemma other_name_size_is_passed_over_witness :
  elf_section_matches (Fixture.elf64_with_note 2 1 (Fixture.note 4 []))
    {| e_class := elf64; e_shoff := 64; e_shnum := 2; e_shstrndx := 1 |}
    192 0 = Done false
  ∧ Z.of_nat (length (Fixture.elf64_with_note 2 1 (Fixture.note 4 [])))
    = 228.
Proof.
  split; [| vm_compute; reflexivity].
  refine (other_name_size_is_passed_over
            (Fixture.elf64_with_note 2 1 (Fixture.note 4 []))
            {| e_class := elf64; e_shoff := 64; e_shnum := 2;
               e_shstrndx := 1 |} 192 0 216 4 _ _ _ _);
    vm_compute; first [reflexivity | discriminate].
Defined.

(** ** The loader, on every path *)

Lemma dispatch_range data file_size r :
  dispatch data file_size = Done r → r = 0 ∨ r = 1.
Proof.
  unfold dispatch. intros (c & _ & H)%bind_Done. case_bool_decide.
  - by eapply is_script_dgsh_program_range.
  - by eapply is_elf_dgsh_program_range.
Qed.

Lemma is_dgsh_program_range w path r :
  fst (is_dgsh_program w path) = Done r → r = 0 ∨ r = 1.
Proof.
  unfold is_dgsh_program, sys_open, sys_mmap.
  destruct (files w !! path) as [b|]; [| intros [= <-]; auto].
  case_bool_decide; cbn [readable];
    (destruct (dispatch _ _) as [r'|] eqn:E; [| done]);
    intros [= <-]; by eapply dispatch_range.
Qed.

(** X11: whenever the classification of a file's bytes stays inside the
    file, [is_dgsh_program] returns that classification for every page size,
    and leaves no descriptor or mapping behind. *)
Theorem in_bounds_result_is_returned w path b r :
  files w !! path = Some b →
  classify_buffer b = Done r →
  is_dgsh_program w path = (Done r, w).
Proof.
  intros Hfile Hr.
  assert (b ≠ []) as Hb by (by intros ->).
  rewrite (is_dgsh_program_file _ _ _ Hfile Hb). unfold mapped_region.
  by rewrite (stable_dispatch _ _ _ _ Hr).
Qed.

Lemma in_bounds_result_is_returned_witness :
  is_dgsh_program
    (Fixture.world_of
       [("a.out"%string, Fixture.elf64_with_note 2 1 Fixture.dgsh_note)])
    "a.out"
  = (Done 1,
     Fixture.world_of
       [("a.out"%string, Fixture.elf64_with_note 2 1 Fixture.dgsh_note)]).
Proof.
  refine (in_bounds_result_is_returned _ "a.out"
            (Fixture.elf64_with_note 2 1 Fixture.dgsh_note) 1 _ _);
    vm_compute; reflexivity.
Defined.

(** X12: on every path through [is_dgsh_program], also when the open or
    the mapping fails or a read leaves the mapped pages, the descriptor has
    been closed and the files are unchanged. *)
Theorem descriptor_is_closed_on_every_path w path :
  open_fds (snd (is_dgsh_program w path)) = open_fds w
  ∧ files (snd (is_dgsh_program w path)) = files w.
Proof.
  unfold is_dgsh_program, sys_open, sys_mmap.
  destruct (files w !! path) as [b|]; [| done].
  case_bool_decide; cbn [readable]; by destruct (dispatch _ _).
Qed.

(** X13: [main] exits with status 0 exactly when [is_dgsh_program] returns
    1 and with status 2 exactly when it returns 0; these are the only values
    [is_dgsh_program] returns. *)
Theorem main_exit_status w path :
  match fst (is_dgsh_program w path) with
  | Done r => (r = 1 ∧ main w path = Done 0) ∨ (r = 0 ∧ main w path = Done 2)
  | OutOfBounds o => main w path = OutOfBounds o
  end.
Proof.
  unfold main.
  destruct (fst (is_dgsh_program w path)) as [r|o] eqn:E; [| done].
  apply is_dgsh_program_range in E as [-> | ->]; auto.
Qed.

(** X14: for a file of length zero the mapping fails with [MAP_FAILED],
    which the test [data == NULL] lets through: the first comparison reads
    through that pointer.  The descriptor has been closed and nothing is
    mapped. *)
Theorem empty_file_is_not_rejected w path :
  files w !! path = Some [] →
  fst (is_dgsh_program w path) = OutOfBounds 0
  ∧ open_fds (snd (is_dgsh_program w path)) = open_fds w
  ∧ live_mappings (snd (is_dgsh_program w path)) = live_mappings w.
Proof.
  intros Hfile. unfold is_dgsh_program, sys_open, sys_mmap. rewrite Hfile.
  rewrite bool_decide_eq_true_2 by done. done.
Qed.

Lemma empty_file_is_not_rejected_witness :
  fst (is_dgsh_program
         (Fixture.world_of [("empty"%string, Fixture.empty_file)]) "empty")
  = OutOfBounds 0.
Proof.
  refine (proj1 (empty_file_is_not_rejected _ "empty" _)).
  vm_compute. reflexivity.
Defined.
